(** * MyBlog: content renderer, slugs, persistence and mail dispatch

    A shallow embedding of the blog's two implementations:
    - [routes.js] / [db.js] / [email.js]: session + SQLite backed site,
    - [src/server.js]: cookie + file/LokiJS backed site.

    JavaScript strings are sequences of UTF-16 code units; they are modelled
    as lists of [N].  Regular expressions are modelled by the matcher they
    denote at a given position, and [String.prototype.replace] with a global
    regex by a left-to-right tokenisation into matches and unmatched
    characters. *)

From Stdlib Require Import String Ascii DecimalString.
From Stdlib Require Import List NArith Bool Arith Lia.
Import ListNotations.

Set Implicit Arguments.

(** ** JavaScript strings *)

Module JsString.

Definition char := N.
Definition jsstring := list char.

(** A source literal (all literals of the program are ASCII). *)
Definition lit (s : string) : jsstring :=
  List.map N_of_ascii (list_ascii_of_string s).

Definition ch (a : ascii) : char := N_of_ascii a.

(** A template of the source, with ['] written for the double quote. *)
Definition tpl (s : string) : jsstring :=
  List.map (fun c => if N.eqb c 39 then 34%N else c) (lit s).

Fixpoint eqs (a b : jsstring) : bool :=
  match a, b with
  | [], [] => true
  | x :: a', y :: b' => N.eqb x y && eqs a' b'
  | _, _ => false
  end.

(** ECMAScript [WhiteSpace] and [LineTerminator] code units: what both
    [String.prototype.trim] strips and the regex class [\s] matches. *)
Definition isSpace (c : char) : bool :=
  (N.leb 9 c && N.leb c 13)
  || N.eqb c 32 || N.eqb c 160 || N.eqb c 5760
  || (N.leb 8192 c && N.leb c 8202)
  || N.eqb c 8232 || N.eqb c 8233 || N.eqb c 8239
  || N.eqb c 8287 || N.eqb c 12288 || N.eqb c 65279.

Definition nonSpace (c : char) : bool := negb (isSpace c).

Fixpoint dropWhile (p : char -> bool) (s : jsstring) : jsstring :=
  match s with
  | [] => []
  | c :: r => if p c then dropWhile p r else s
  end.

Fixpoint takeWhile (p : char -> bool) (s : jsstring) : jsstring :=
  match s with
  | [] => []
  | c :: r => if p c then c :: takeWhile p r else []
  end.

Definition trimStart (s : jsstring) : jsstring := dropWhile isSpace s.
Definition trimEnd (s : jsstring) : jsstring := rev (dropWhile isSpace (rev s)).
(** [String.prototype.trim] *)
Definition trim (s : jsstring) : jsstring := trimEnd (trimStart s).

(** [strip p s]: the rest of [s] after the literal [p], when [s] starts with it. *)
Fixpoint strip (eqc : char -> char -> bool) (p s : jsstring) : option jsstring :=
  match p with
  | [] => Some s
  | a :: p' =>
      match s with
      | [] => None
      | c :: s' => if eqc a c then strip eqc p' s' else None
      end
  end.

Definition isSome {A} (o : option A) : bool :=
  match o with Some _ => true | None => false end.

(** Character comparison of a regex without / with the [i] flag.  The
    patterns of the program are ASCII; without the [u] flag a non-ASCII code
    unit never canonicalises to an ASCII one, so only the two ASCII cases of
    a letter match it. *)
Definition cs_eq (p c : char) : bool := N.eqb p c.

Definition asciiUpper (c : char) : char :=
  if N.leb 97 c && N.leb c 122 then N.sub c 32 else c.

Definition asciiLowerChar (c : char) : char :=
  if N.leb 65 c && N.leb c 90 then N.add c 32 else c.

Definition ci_eq (p c : char) : bool :=
  N.eqb p c || (N.ltb c 128 && N.eqb (asciiUpper p) (asciiUpper c)).

(** ** Global regex replacement

    [tokens m skip s] reads [s] from the left as a global regex does: where
    the matcher [m] succeeds with a match of [n] code units the match is one
    token and the scan resumes behind it ([skip] counts the code units of the
    current match still to pass over); any other code unit is a token of its
    own. *)

Inductive token :=
| Chr (c : char)
| Hit (u : jsstring).

Fixpoint tokens (m : jsstring -> option nat) (skip : nat) (s : jsstring)
  : list token :=
  match s with
  | [] => []
  | c :: r =>
      match skip with
      | S k => tokens m k r
      | O =>
          match m s with
          | Some n => Hit (firstn n s) :: tokens m (Nat.pred n) r
          | None => Chr c :: tokens m 0 r
          end
      end
  end.

Definition subst (f : jsstring -> jsstring) (t : token) : jsstring :=
  match t with
  | Chr c => [c]
  | Hit u => f u
  end.

(** [s.replace(re, f)] for a global [re] that matches no empty string. *)
Definition replace (m : jsstring -> option nat) (f : jsstring -> jsstring)
  (s : jsstring) : jsstring :=
  flat_map (subst f) (tokens m 0 s).

(** [s.match(re)?.[0]] for a global [re]: the leftmost match. *)
Fixpoint firstMatch (m : jsstring -> option nat) (s : jsstring)
  : option jsstring :=
  match s with
  | [] => None
  | _ :: r =>
      match m s with
      | Some n => Some (firstn n s)
      | None => firstMatch m r
      end
  end.

(** [re.test(s)] for a regex whose match at a position is decided by [m]. *)
Fixpoint test (m : jsstring -> bool) (s : jsstring) : bool :=
  m s || match s with [] => false | _ :: r => test m r end.

(** A one-character class as a matcher. *)
Definition oneOf (p : char -> bool) (s : jsstring) : option nat :=
  match s with
  | c :: _ => if p c then Some 1 else None
  | [] => None
  end.

(** [Array.prototype.join] *)
Fixpoint join (sep : jsstring) (l : list jsstring) : jsstring :=
  match l with
  | [] => []
  | [x] => x
  | x :: l' => x ++ sep ++ join sep l'
  end.

Definition consFirst (c : char) (l : list jsstring) : list jsstring :=
  match l with
  | x :: l' => (c :: x) :: l'
  | [] => [[c]]
  end.

Definition startsLF (s : jsstring) : bool :=
  match s with c :: _ => N.eqb c 10 | [] => false end.

(** [s.split(/\r?\n/)] *)
Fixpoint splitLines (s : jsstring) : list jsstring :=
  match s with
  | [] => [[]]
  | c :: r =>
      if N.eqb c 10 then [] :: splitLines r
      else if N.eqb c 13 && startsLF r then splitLines r
      else consFirst c (splitLines r)
  end.

End JsString.

Import JsString.

(** ** The content renderer and slugs ([routes.js]) *)

Module Renderer.

Definition AMP : char := 38%N.
Definition LT : char := 60%N.
Definition GT : char := 62%N.
Definition HYPHEN : char := 45%N.

(** [escapeHtml]: three global replacements, in the source's order. *)
Definition escapeHtml (s : jsstring) : jsstring :=
  let s1 := replace (oneOf (N.eqb AMP)) (fun _ => lit "&amp;") s in
  let s2 := replace (oneOf (N.eqb LT)) (fun _ => lit "&lt;") s1 in
  replace (oneOf (N.eqb GT)) (fun _ => lit "&gt;") s2.

(** [https?:\/\/] at the head of [s]: the rest behind it. *)
Definition scheme (eqc : char -> char -> bool) (s : jsstring) : option jsstring :=
  match strip eqc (lit "http") s with
  | Some r =>
      match strip eqc (lit "s://") r with
      | Some r' => Some r'
      | None => strip eqc (lit "://") r
      end
  | None => None
  end.

(** [urlRegex = /(https?:\/\/[^\s]+)/g] at the head of [s]: the length of
    the match. *)
Definition urlRegex (s : jsstring) : option nat :=
  match scheme cs_eq s with
  | Some r =>
      match takeWhile nonSpace r with
      | [] => None
      | run => Some (length s - length r + length run)
      end
  | None => None
  end.

Definition extensions : list jsstring :=
  [lit "png"; lit "jpg"; lit "jpeg"; lit "gif"; lit "webp"].

(** [\.(?:png|jpg|jpeg|gif|webp)] with the [i] flag at the head of [s]:
    the rests behind each alternative that matches. *)
Definition dotExt (s : jsstring) : list jsstring :=
  flat_map (fun e => match strip ci_eq (ch "."%char :: e) s with
                     | Some r => [r]
                     | None => []
                     end) extensions.

(** [[^\s]+\.(?:png|...)] at the head of [s]: one or more non-space code
    units, then a dot and an extension. *)
Fixpoint bodyThenExt (s : jsstring) : bool :=
  match s with
  | [] => false
  | c :: r =>
      nonSpace c
      && (match dotExt r with [] => false | _ => true end || bodyThenExt r)
  end.

(** [imageRegex = /(https?:\/\/[^\s]+\.(?:png|jpg|jpeg|gif|webp))/i] at the
    head of [s]. *)
Definition imageRegexAt (s : jsstring) : bool :=
  match scheme ci_eq s with
  | Some r => bodyThenExt r
  | None => false
  end.

Definition imageRegex_test (s : jsstring) : bool := test imageRegexAt s.

(** [/(\.png|\.jpg|\.jpeg|\.gif|\.webp)(\?|#|$)/i] at the head of [s]. *)
Definition isImgAt (s : jsstring) : bool :=
  existsb (fun r => match r with
                    | [] => true
                    | c :: _ => N.eqb c (ch "?"%char) || N.eqb c (ch "#"%char)
                    end) (dotExt s).

Definition isImg (url : jsstring) : bool := test isImgAt url.

Definition imageElement (src : jsstring) : jsstring :=
  tpl "<div class='post-image'><img src='" ++ src
  ++ tpl "' alt='image' loading='lazy'/></div>".

Definition anchorElement (href : jsstring) : jsstring :=
  tpl "<a href='" ++ href
  ++ tpl "' target='_blank' rel='noopener noreferrer'>" ++ href
  ++ lit "</a>".

(** The callback of [escaped.replace(urlRegex, ...)]. *)
Definition linkOne (url : jsstring) : jsstring :=
  if isImg url then imageElement (escapeHtml url)
  else anchorElement (escapeHtml url).

Definition linkify (escaped : jsstring) : jsstring :=
  replace urlRegex linkOne escaped.

(** [imageRegex.test(trimmed) && trimmed.match(urlRegex)?.[0] === trimmed] *)
Definition standaloneImage (trimmed : jsstring) : bool :=
  imageRegex_test trimmed
  && match firstMatch urlRegex trimmed with
     | Some u => eqs u trimmed
     | None => false
     end.

(** The callback of [lines.map(...)]. *)
Definition renderLine (line : jsstring) : jsstring :=
  let trimmed := trim line in
  match trimmed with
  | [] => lit "<br/>"
  | _ =>
      if standaloneImage trimmed then imageElement (escapeHtml trimmed)
      else lit "<p>" ++ linkify (escapeHtml line) ++ lit "</p>"
  end.

Definition renderContentToHtml (content : jsstring) : jsstring :=
  match content with
  | [] => []
  | _ => join [10%N] (List.map renderLine (splitLines content))
  end.

(** *** [slugify]

    [String.prototype.toLowerCase] follows the Unicode case tables, which are
    not part of the program: it is a parameter.  [asciiLower] is its
    restriction to ASCII text. *)

Definition asciiLower (s : jsstring) : jsstring := List.map asciiLowerChar s.

Definition isHyphen (c : char) : bool := N.eqb c HYPHEN.

(** The class [[a-z0-9\s-]]. *)
Definition slugChar (c : char) : bool :=
  (N.leb 97 c && N.leb c 122) || (N.leb 48 c && N.leb c 57)
  || isSpace c || isHyphen c.

(** The class [[\s-]]. *)
Definition spaceOrHyphen (c : char) : bool := isSpace c || isHyphen c.

(** [p+] at the head of [s]. *)
Definition runOf (p : char -> bool) (s : jsstring) : option nat :=
  match takeWhile p s with
  | [] => None
  | run => Some (List.length run)
  end.

(** [/^-+|-+$/] at the head of a suffix [s]; [atStart] tells whether the
    suffix is the whole string. *)
Definition edgeHyphens (atStart : bool) (s : jsstring) : option nat :=
  match takeWhile isHyphen s with
  | [] => None
  | run =>
      if atStart || Nat.eqb (List.length run) (List.length s)
      then Some (List.length run) else None
  end.

(** [s.replace(re, f)] for a global [re] with an anchor [^]. *)
Definition replaceAnchored (m : bool -> jsstring -> option nat)
  (f : jsstring -> jsstring) (s : jsstring) : jsstring :=
  flat_map (subst f)
    (match s with
     | [] => []
     | c :: r =>
         match m true s with
         | Some n => Hit (firstn n s) :: tokens (m false) (Nat.pred n) r
         | None => Chr c :: tokens (m false) 0 r
         end
     end).

Section Slug.

Variable toLowerCase : jsstring -> jsstring.

Definition slugify (text : jsstring) : jsstring :=
  let s0 := trim (toLowerCase text) in
  let s1 := replace (oneOf (fun c => negb (slugChar c))) (fun _ => []) s0 in
  let s2 := replace (runOf spaceOrHyphen) (fun _ => lit "-") s1 in
  replaceAnchored edgeHyphens (fun _ => []) s2.

End Slug.

End Renderer.

(** ** Mail dispatch ([email.js]) *)

Module Email.

(** [process.env]: each entry is [undefined] or a string. *)
Record Env := {
  MAIL_FROM : option jsstring;
  SMTP_HOST : option jsstring;
  SMTP_USER : option jsstring;
  SMTP_PASS : option jsstring;
  RESEND_API_KEY : option jsstring
}.

(** Truthiness of [undefined] and of a string. *)
Definition truthy (v : option jsstring) : bool :=
  match v with
  | Some (_ :: _) => true
  | _ => false
  end.

(** [a || b] *)
Definition jsOr (a b : option jsstring) : option jsstring :=
  if truthy a then a else b.

Record Mail := {
  to : jsstring;
  subject : jsstring;
  html : jsstring;
  text : jsstring
}.

(** The payload handed to either provider: [{ from, to, subject, html, text }]. *)
Record Envelope := {
  from : option jsstring;
  mail : Mail
}.

(** What the outside answers.  [fetch] rejects (a transport error) or gives a
    response with its [ok] flag, whose body may be readable or not;
    [transport.sendMail] resolves or rejects. *)
Inductive HttpAnswer :=
| NetworkError
| Response (ok : bool) (bodyReadable : bool).

Inductive SmtpAnswer :=
| Accepted
| Refused.

Record World := {
  http : Envelope -> HttpAnswer;
  smtp : Envelope -> SmtpAnswer
}.

(** Observable effects, in order. *)
Inductive Event :=
| Warn (msg : jsstring)
| Log (msg : jsstring) (about : jsstring)
| Error (msg : jsstring) (about : jsstring)
| Count (msg : jsstring) (total sent failed : nat)
| HttpPost (key : jsstring) (e : Envelope)
| SmtpSend (e : Envelope).

(** *** Async functions

    A promise settles as resolved with a value or as rejected; an async
    computation extends the trace of effects and settles. *)

Inductive outcome (A : Type) :=
| Resolved (a : A)
| Rejected.
Arguments Resolved {A} a.
Arguments Rejected {A}.

Definition Async (A : Type) : Type := list Event -> list Event * outcome A.

Definition ret {A} (a : A) : Async A := fun tr => (tr, Resolved a).

Definition throw {A} : Async A := fun tr => (tr, Rejected).

Definition bind {A B} (c : Async A) (k : A -> Async B) : Async B :=
  fun tr =>
    match c tr with
    | (tr', Resolved a) => k a tr'
    | (tr', Rejected) => (tr', Rejected)
    end.

(** [try { c } catch (err) { h }] *)
Definition tryCatch {A} (c h : Async A) : Async A :=
  fun tr =>
    match c tr with
    | (tr', Resolved a) => (tr', Resolved a)
    | (tr', Rejected) => h tr'
    end.

Definition emit (e : Event) : Async unit := fun tr => (tr ++ [e], Resolved tt).

Notation "x <- c ;; k" := (bind c (fun x => k))
  (at level 61, c at next level, right associativity).
Notation "c ;;; k" := (bind c (fun _ => k))
  (at level 61, right associativity).

(** *** [createTransport] *)

Definition smtpConfigured (env : Env) : bool :=
  truthy (SMTP_HOST env) && truthy (SMTP_USER env) && truthy (SMTP_PASS env).

(** [null] when a credential is missing, else the nodemailer transport. *)
Definition createTransport (env : Env) : Async (option unit) :=
  if negb (truthy (SMTP_HOST env)) || negb (truthy (SMTP_USER env))
     || negb (truthy (SMTP_PASS env))
  then
    emit (Warn (lit "Email disabled: missing SMTP env (SMTP_HOST, SMTP_USER, SMTP_PASS)")) ;;;
    ret None
  else ret (Some tt).

(** *** [sendMail] *)

Definition fallbackSender : jsstring := lit "onboarding@resend.dev".

Definition noSenderWarning : jsstring :=
  lit "MAIL_FROM not set. Using default sender onboarding@resend.dev".

Definition sender (env : Env) : option jsstring :=
  jsOr (MAIL_FROM env) (jsOr (SMTP_USER env) (Some fallbackSender)).

(** [await fetch('https://api.resend.com/emails', ...)] *)
Definition fetchResend (w : World) (key : jsstring) (e : Envelope)
  : Async (bool * bool) :=
  emit (HttpPost key e) ;;;
  match http w e with
  | NetworkError => throw
  | Response ok readable => ret (ok, readable)
  end.

(** [await res.text()] and [await res.json()] *)
Definition readBody (readable : bool) : Async unit :=
  if readable then ret tt else throw.

(** [await transport.sendMail(...)] *)
Definition transportSend (w : World) (e : Envelope) : Async unit :=
  emit (SmtpSend e) ;;;
  match smtp w e with
  | Accepted => ret tt
  | Refused => throw
  end.

(** The [if (resendKey) { try ... catch ... }] block: [true] when it
    returned [true] from [sendMail], [false] when control falls through. *)
Definition viaResend (w : World) (env : Env) (e : Envelope) : Async bool :=
  match RESEND_API_KEY env with
  | Some (c :: k) =>
      tryCatch
        (res <- fetchResend w (c :: k) e ;;
         (if negb (fst res) then readBody (snd res) ;;; throw else ret tt) ;;;
         readBody (snd res) ;;;
         emit (Log (lit "Email sent via Resend") (to (mail e))) ;;;
         ret true)
        (emit (Error (lit "Resend send failed") (to (mail e))) ;;;
         ret false)
  | _ => ret false
  end.

Definition sendMail (w : World) (env : Env) (m : Mail) : Async bool :=
  let e := {| from := sender env; mail := m |} in
  (if negb (truthy (MAIL_FROM env)) && negb (truthy (SMTP_USER env))
   then emit (Warn noSenderWarning) else ret tt) ;;;
  sent <- viaResend w env e ;;
  if sent then ret true
  else
    transport <- createTransport env ;;
    match transport with
    | None => ret false
    | Some _ =>
        tryCatch
          (transportSend w e ;;;
           emit (Log (lit "Email sent via SMTP") (to (mail e))) ;;;
           ret true)
          (emit (Error (lit "SMTP send failed") (to (mail e))) ;;;
           ret false)
    end.

(** *** [Promise.allSettled]

    The sends of a batch run concurrently; the trace records one of their
    interleavings, the settled results keep the order of the promises. *)

Fixpoint allSettled {A} (ps : list (Async A)) : Async (list (outcome A)) :=
  match ps with
  | [] => ret []
  | p :: ps' =>
      fun tr =>
        let '(tr1, r) := p tr in
        let '(tr2, rs) := allSettled ps' tr1 in
        (tr2, match rs with
              | Resolved l => Resolved (r :: l)
              | Rejected => Rejected
              end)
  end.

(** [r.status === 'fulfilled'] *)
Definition fulfilled {A} (r : outcome A) : bool :=
  match r with Resolved _ => true | Rejected => false end.

End Email.

(** ** The SQLite store ([db.js]) *)

Module Sqlite.

Record Post := {
  post_id : N;
  post_title : jsstring;
  post_slug : jsstring;
  post_content : jsstring
}.

Record Comment := {
  comment_id : N;
  comment_post_id : N;
  comment_author : jsstring;
  comment_body : jsstring
}.

Record Subscriber := {
  subscriber_id : N;
  subscriber_email : jsstring
}.

(** A connection and the tables behind it.  [foreign_keys] is the
    connection's [PRAGMA foreign_keys]: SQLite enforces foreign-key clauses,
    [ON DELETE CASCADE] among them, only on a connection that switched it
    on; the [*_seq] fields are the [AUTOINCREMENT] counters. *)
Record Db := {
  foreign_keys : bool;
  posts : list Post;
  posts_seq : N;
  comments : list Comment;
  comments_seq : N;
  subscribers : list Subscriber;
  subscribers_seq : N
}.

(** The stored tables, without the connection. *)
Record Tables := {
  t_posts : list Post;
  t_posts_seq : N;
  t_comments : list Comment;
  t_comments_seq : N;
  t_subscribers : list Subscriber;
  t_subscribers_seq : N
}.

(** [getDb]: [new sqlite3.Database(dbPath)].  No statement of the program
    sets [PRAGMA foreign_keys], so the connection keeps SQLite's default. *)
Definition getDb (t : Tables) : Db :=
  {| foreign_keys := false;
     posts := t_posts t; posts_seq := t_posts_seq t;
     comments := t_comments t; comments_seq := t_comments_seq t;
     subscribers := t_subscribers t; subscribers_seq := t_subscribers_seq t |}.

Definition hasSlug (s : jsstring) (db : Db) : bool :=
  existsb (fun p => eqs (post_slug p) s) (posts db).

Definition hasEmail (e : jsstring) (db : Db) : bool :=
  existsb (fun s => eqs (subscriber_email s) e) (subscribers db).

(** [INSERT INTO posts (title, slug, content) VALUES (?, ?, ?)]: rejected
    when the [UNIQUE] slug is taken. *)
Definition insertPost (title slug content : jsstring) (db : Db) : option Db :=
  if hasSlug slug db then None
  else
    let id := N.succ (posts_seq db) in
    Some {| foreign_keys := foreign_keys db;
            posts := posts db ++ [{| post_id := id; post_title := title;
                                     post_slug := slug; post_content := content |}];
            posts_seq := id;
            comments := comments db; comments_seq := comments_seq db;
            subscribers := subscribers db;
            subscribers_seq := subscribers_seq db |}.

(** [INSERT INTO subscribers (email) VALUES (?)]: rejected when the [UNIQUE]
    email is taken. *)
Definition insertSubscriber (email : jsstring) (db : Db) : option Db :=
  if hasEmail email db then None
  else
    let id := N.succ (subscribers_seq db) in
    Some {| foreign_keys := foreign_keys db;
            posts := posts db; posts_seq := posts_seq db;
            comments := comments db; comments_seq := comments_seq db;
            subscribers := subscribers db
                           ++ [{| subscriber_id := id; subscriber_email := email |}];
            subscribers_seq := id |}.

(** [INSERT INTO comments (post_id, author, body) VALUES (?, ?, ?)] *)
Definition insertComment (post : N) (author body : jsstring) (db : Db) : Db :=
  let id := N.succ (comments_seq db) in
  {| foreign_keys := foreign_keys db;
     posts := posts db; posts_seq := posts_seq db;
     comments := comments db
                 ++ [{| comment_id := id; comment_post_id := post;
                        comment_author := author; comment_body := body |}];
     comments_seq := id;
     subscribers := subscribers db; subscribers_seq := subscribers_seq db |}.

(** [DELETE FROM posts WHERE id = ?].  The comments of a deleted post go
    with it ([ON DELETE CASCADE]) when the connection enforces foreign keys. *)
Definition deletePostRow (id : N) (db : Db) : Db :=
  let deleted := existsb (fun p => N.eqb (post_id p) id) (posts db) in
  {| foreign_keys := foreign_keys db;
     posts := filter (fun p => negb (N.eqb (post_id p) id)) (posts db);
     posts_seq := posts_seq db;
     comments :=
       if foreign_keys db && deleted
       then filter (fun c => negb (N.eqb (comment_post_id c) id)) (comments db)
       else comments db;
     comments_seq := comments_seq db;
     subscribers := subscribers db; subscribers_seq := subscribers_seq db |}.

(** [SELECT email FROM subscribers] *)
Definition subscriberEmails (db : Db) : list jsstring :=
  List.map subscriber_email (subscribers db).

End Sqlite.

(** ** The session + SQLite site ([routes.js]) *)

Module Routes.
Import Email Sqlite.

Inductive Response :=
| Redirect (url : jsstring)
| Render (view : jsstring) (error : option jsstring)
| Send (status : N) (body : jsstring).

(** [v || ''] for a form field. *)
Definition field (v : option jsstring) : jsstring :=
  match v with Some s => s | None => [] end.

Definition welcomeMail (email : jsstring) : Mail :=
  {| to := email;
     subject := lit "Welcome to abelashine blog";
     text := lit "Welcome to abelashine blog! You're subscribed for new articles.";
     html := lit "<p>Welcome to <strong>abelashine blog</strong>! "
             ++ [55356%N; 57225%N]
             ++ lit "</p><p>We'll email you when new articles are published.</p>" |}.

(** The settled results of a batch, counted as the handlers count them. *)
Definition countFulfilled {A} (results : list (outcome A)) : nat :=
  List.length (filter fulfilled results).

Definition logBatch {A} (label : jsstring) (results : list (outcome A))
  : Async unit :=
  let sent := countFulfilled results in
  let failed := List.length results - sent in
  emit (Count label (List.length results) sent failed).

Definition broadcastHtml (subject message : jsstring) : jsstring :=
  tpl "
  <div style='font-family: Arial, sans-serif; background:#f6f7f9; padding:24px'>
    <div style='max-width:640px; margin:0 auto; background:#ffffff; border-radius:8px; overflow:hidden; box-shadow:0 2px 8px rgba(0,0,0,0.06)'>
      <div style='background:#111; color:#fff; padding:16px 20px;'>
        <h2 style='margin:0; font-weight:600'>abelashine</h2>
      </div>
      <div style='padding:20px'>
        <h3 style='margin-top:0; color:#111'>" ++ subject ++ tpl "</h3>
        <div style='white-space:pre-wrap; color:#222; line-height:1.6'>"
  ++ replace (oneOf (N.eqb Renderer.LT)) (fun _ => lit "&lt;") message
  ++ tpl "</div>
        <p style='margin-top:28px; color:#666; font-size:12px'>You are receiving this because you subscribed to abelashine updates.</p>
      </div>
    </div>
  </div>".

Record PostForm := {
  form_title : option jsstring;
  form_content : option jsstring;
  form_files : list jsstring;
  form_protocol : jsstring;
  form_host : jsstring
}.

Section Handlers.

Variable toLowerCase : jsstring -> jsstring.
Variable w : World.
Variable env : Env.

(** A handler reads and writes the store, extends the trace and answers. *)
Definition Handler : Type := Db -> list Event -> Response * Db * list Event.

(** [router.post('/subscribe')] *)
Definition subscribe (emailField : option jsstring) : Handler :=
  fun db tr =>
    let email := toLowerCase (trim (field emailField)) in
    match email with
    | [] => (Redirect (lit "/"), db, tr)
    | _ =>
        match insertSubscriber email db with
        | Some db' =>
            let tr1 := tr ++ [Log (lit "[subscribe] New subscriber:") email;
                              Log (lit "[subscribe] Sending welcome email...") []] in
            (* sendMail(...).catch(() => {}): started, not awaited *)
            let tr2 := fst (sendMail w env (welcomeMail email) tr1) in
            (Redirect (lit "/?subscribed=1"), db',
             tr2 ++ [Log (lit "[subscribe] Welcome email queued") []])
        | None => (Redirect (lit "/?subscribed=0"), db, tr)
        end
    end.

(** [requireAuth] *)
Definition requireAuth (userId : option N) (h : Handler) : Handler :=
  fun db tr =>
    match userId with
    | Some _ => h db tr
    | None => (Redirect (lit "/login"), db, tr)
    end.

Definition uploadUrls (f : PostForm) : list jsstring :=
  List.map (fun name => form_protocol f ++ lit "://" ++ form_host f
                        ++ lit "/uploads/" ++ name) (form_files f).

Definition notification (title slug : jsstring) (f : PostForm) (email : jsstring)
  : Mail :=
  let postUrl := form_protocol f ++ lit "://" ++ form_host f
                 ++ lit "/post/" ++ slug in
  {| to := email;
     subject := lit "New post: " ++ title;
     html := tpl "<p>New post: <strong>" ++ title
             ++ tpl "</strong></p><p><a href='" ++ postUrl
             ++ tpl "'>Read it here</a></p>";
     text := lit "New post: " ++ title ++ [10%N] ++ postUrl |}.

(** [router.post('/admin/posts')] *)
Definition createPost (userId : option N) (f : PostForm) : Handler :=
  requireAuth userId (fun db tr =>
    let title := trim (field (form_title f)) in
    let content := trim (field (form_content f)) in
    match title, content with
    | _ :: _, _ :: _ =>
        let slug := Renderer.slugify toLowerCase title in
        let finalContent :=
          match form_files f with
          | [] => content
          | _ => content ++ [10%N; 10%N] ++ join [10%N] (uploadUrls f)
          end in
        match insertPost title slug finalContent db with
        | Some db' =>
            let batch :=
              results <- allSettled
                           (List.map (fun e => sendMail w env (notification title slug f e))
                                     (subscriberEmails db')) ;;
              logBatch (lit "[post] Notification results:") results in
            (Redirect (lit "/admin"), db',
             fst (batch (tr ++ [Log (lit "[post] Created:") title;
                                Log (lit "[post] Notifying subscribers:") []])))
        | None => (Render (lit "admin/new") (Some (lit "Title already used")), db, tr)
        end
    | _, _ =>
        (Render (lit "admin/new") (Some (lit "Title and content required")), db, tr)
    end).

(** [router.delete('/admin/posts/:id')] *)
Definition deletePost (userId : option N) (id : N) : Handler :=
  requireAuth userId (fun db tr =>
    (Redirect (lit "/admin"), deletePostRow id db, tr)).

(** [router.post('/admin/broadcast')] *)
Definition broadcast (userId : option N) (subjectField messageField : option jsstring)
  : Handler :=
  requireAuth userId (fun db tr =>
    let subject := trim (field subjectField) in
    let message := trim (field messageField) in
    match subject, message with
    | _ :: _, _ :: _ =>
        let mailTo e := {| to := e; subject := subject;
                           html := broadcastHtml subject message;
                           text := message |} in
        let batch :=
          results <- allSettled (List.map (fun e => sendMail w env (mailTo e))
                                          (subscriberEmails db)) ;;
          logBatch (lit "[broadcast] Results:") results in
        (Render (lit "admin/broadcast") None, db,
         fst (batch (tr ++ [Log (lit "[broadcast] Sending to subscribers:") subject])))
    | _, _ =>
        (Render (lit "admin/broadcast") (Some (lit "Subject and message required")),
         db, tr)
    end).

End Handlers.

End Routes.

(** ** The cookie + file/LokiJS site ([src/server.js]) *)

Module Server.

Record PostDoc := {
  doc_slug : jsstring;
  doc_title : jsstring;
  doc_createdAt : jsstring
}.

Record CommentDoc := {
  cdoc_slug : jsstring;
  cdoc_name : jsstring;
  cdoc_text : jsstring;
  cdoc_createdAt : jsstring
}.

(** The [.md] files of [POSTS_DIR], each by its slug with its text, and the
    two collections ([undefined] until the database has loaded). *)
Record State := {
  files : list (jsstring * jsstring);
  postsCollection : option (list PostDoc);
  commentsCollection : option (list CommentDoc)
}.

Inductive Response :=
| Redirect (url : jsstring)
| Status (code : N) (body : jsstring)
| Json (code : N) (body : jsstring).

Fixpoint readFile (slug : jsstring) (fs : list (jsstring * jsstring))
  : option jsstring :=
  match fs with
  | [] => None
  | (k, v) :: fs' => if eqs k slug then Some v else readFile slug fs'
  end.

(** [fs.writeFileSync]: creates the file or replaces its content. *)
Fixpoint writeFile (slug : jsstring) (v : jsstring) (fs : list (jsstring * jsstring))
  : list (jsstring * jsstring) :=
  match fs with
  | [] => [(slug, v)]
  | (k, v') :: fs' =>
      if eqs k slug then (k, v) :: fs' else (k, v') :: writeFile slug v fs'
  end.

(** [if (fs.existsSync(filePath)) fs.unlinkSync(filePath)] *)
Definition unlinkFile (slug : jsstring) (fs : list (jsstring * jsstring))
  : list (jsstring * jsstring) :=
  filter (fun kv => negb (eqs (fst kv) slug)) fs.

(** [const row = findOne({ slug }); if (row) remove(row)]: the first
    document of that slug. *)
Fixpoint removeFirst (slug : jsstring) (docs : list PostDoc) : list PostDoc :=
  match docs with
  | [] => []
  | d :: docs' =>
      if eqs (doc_slug d) slug then docs' else d :: removeFirst slug docs'
  end.

(** [findAndRemove({ slug })]: every document of that slug. *)
Definition findAndRemove (slug : jsstring) (docs : list CommentDoc)
  : list CommentDoc :=
  filter (fun c => negb (eqs (cdoc_slug c) slug)) docs.

(** The decimal digits of [Date.now()]. *)
Definition digits (n : N) : jsstring :=
  lit (DecimalString.NilZero.string_of_uint (N.to_uint n)).

(** A request of an administrator route: the [admin] cookie and whether the
    caller wants JSON. *)
Record Caller := {
  isAdmin : bool;
  wantsJson : bool
}.

Definition requireAdmin (c : Caller) (h : State -> Response * State)
  : State -> Response * State :=
  fun st =>
    if isAdmin c then h st
    else if wantsJson c then (Json 401 (lit "Unauthorized"), st)
    else (Redirect (lit "/login"), st).

Section Handlers.

(** The [slugify] package with [{ lower: true, strict: true }]; its
    character map is not part of the repository. *)
Variable slugifyPkg : jsstring -> jsstring.

(** [matter.stringify(body, { title, createdAt })] of the gray-matter
    package, which is not part of the repository either: the text it
    returns, or [None] when it throws (it reads a string body for a front
    matter of its own before it writes). *)
Variable stringify : jsstring -> jsstring -> jsstring -> option jsstring.

(** [slugify(title, ...) || `post-${Date.now()}`] *)
Definition slugFor (now : N) (title : jsstring) : jsstring :=
  match slugifyPkg title with
  | [] => lit "post-" ++ digits now
  | s => s
  end.

(** [app.post('/publish')]; [now] is [Date.now()], [iso] and [iso'] are the
    two readings of [new Date().toISOString()], for the file and for the
    document.  What [matter.stringify] throws is caught and answered with
    500, before anything is written. *)
Definition publish (c : Caller) (now : N) (iso iso' : jsstring)
  (title body : option jsstring) : State -> Response * State :=
  requireAdmin c (fun st =>
    match title, body with
    | Some (t0 :: t), Some (b0 :: b) =>
        let slug := slugFor now (t0 :: t) in
        match stringify (b0 :: b) (t0 :: t) iso with
        | Some frontmatter =>
            (Redirect (lit "/p/" ++ slug),
             {| files := writeFile slug frontmatter (files st);
                postsCollection :=
                  match postsCollection st with
                  | Some docs =>
                      Some (docs ++ [{| doc_slug := slug; doc_title := t0 :: t;
                                        doc_createdAt := iso' |}])
                  | None => None
                  end;
                commentsCollection := commentsCollection st |})
        | None => (Status 500 (lit "Failed to publish"), st)
        end
    | _, _ => (Status 400 (lit "Title and body are required"), st)
    end).

(** [app.post('/admin/posts/:slug/delete')] *)
Definition deletePost (c : Caller) (slug : jsstring) : State -> Response * State :=
  requireAdmin c (fun st =>
    (Redirect (lit "/admin/posts"),
     {| files := unlinkFile slug (files st);
        postsCollection := option_map (removeFirst slug) (postsCollection st);
        commentsCollection := option_map (findAndRemove slug) (commentsCollection st) |})).

End Handlers.

(** A stand-in for the package on titles of ASCII letters, digits and
    spaces, where its character map changes nothing: trimmed, runs of spaces
    become one hyphen, letters are lowered. *)
Definition slugifyAscii (title : jsstring) : jsstring :=
  Renderer.asciiLower
    (replace (Renderer.runOf isSpace) (fun _ => lit "-") (trim title)).

(** [newline] of gray-matter: a text ends with a line feed. *)
Definition newline (s : jsstring) : jsstring :=
  match rev s with
  | 10%N :: _ => s
  | _ => s ++ [10%N]
  end.

(** A stand-in for [matter.stringify] on a body that does not open with
    [---], a one-line title that YAML writes plain, and a time stamp (which
    YAML writes in single quotes): the front matter between two [---]
    lines, then the body. *)
Definition stringifyPlain (body title createdAt : jsstring) : option jsstring :=
  Some (lit "---" ++ [10%N]
        ++ lit "title: " ++ title ++ [10%N]
        ++ lit "createdAt: '" ++ createdAt ++ lit "'" ++ [10%N]
        ++ lit "---" ++ [10%N]
        ++ newline body).

End Server.

(** ** Uploads ([routes.js], the [multer] storage) *)

Module Uploads.

(** The class [[a-zA-Z0-9_\.-]]. *)
Definition safeChar (c : char) : bool :=
  (N.leb 97 c && N.leb c 122) || (N.leb 65 c && N.leb c 90)
  || (N.leb 48 c && N.leb c 57)
  || N.eqb c 95 || N.eqb c 46 || N.eqb c 45.

(** [(file.originalname || 'image').replace(/[^a-zA-Z0-9_\.-]/g, '_')] *)
Definition safeBase (originalname : option jsstring) : jsstring :=
  replace (oneOf (fun c => negb (safeChar c))) (fun _ => lit "_")
    (match originalname with
     | Some (c :: s) => c :: s
     | _ => lit "image"
     end).

(** The [filename] callback; [now] is [Date.now()] and [rnd] is
    [Math.round(Math.random() * 1e9)]. *)
Definition filename (now rnd : N) (originalname : option jsstring) : jsstring :=
  (Server.digits now ++ lit "-" ++ Server.digits rnd) ++ lit "-"
  ++ safeBase originalname.

(** The [fileFilter]: [/^image\//.test(file.mimetype)]. *)
Definition fileFilter (mimetype : jsstring) : bool :=
  isSome (strip cs_eq (lit "image/") mimetype).

End Uploads.

(** ** More routes of the session + SQLite site ([routes.js]) *)

Module RoutesMore.
Import Email Sqlite Routes.

(** [SELECT id FROM posts WHERE slug = ?] *)
Definition findPostBySlug (slug : jsstring) (db : Db) : option Post :=
  find (fun p => eqs (post_slug p) slug) (posts db).

(** [req.body.author?.trim() || 'Anonymous'] *)
Definition authorOf (v : option jsstring) : jsstring :=
  match option_map trim v with
  | Some (c :: s) => c :: s
  | _ => lit "Anonymous"
  end.

(** [router.post('/post/:slug/comments')] *)
Definition addComment (slug : jsstring) (author body : option jsstring) : Handler :=
  fun db tr =>
    match findPostBySlug slug db with
    | None => (Send 404 (lit "Not found"), db, tr)
    | Some post =>
        match option_map trim body with
        | Some (c :: b) =>
            (Redirect (lit "/post/" ++ slug),
             insertComment (post_id post) (authorOf author) (c :: b) db, tr)
        | _ => (Redirect (lit "/post/" ++ slug), db, tr)
        end
    end.

Definition hasPostId (id : N) (db : Db) : bool :=
  existsb (fun p => N.eqb (post_id p) id) (posts db).

(** [UPDATE posts SET title = ?, slug = ?, content = ?, ... WHERE id = ?]:
    rejected when the row exists and another row holds the [UNIQUE] slug. *)
Definition updatePostRow (id : N) (title slug content : jsstring) (db : Db)
  : option Db :=
  if hasPostId id db
     && existsb (fun p => negb (N.eqb (post_id p) id) && eqs (post_slug p) slug)
          (posts db)
  then None
  else
    Some {| foreign_keys := foreign_keys db;
            posts := List.map
                       (fun p => if N.eqb (post_id p) id
                                 then {| post_id := post_id p; post_title := title;
                                         post_slug := slug; post_content := content |}
                                 else p) (posts db);
            posts_seq := posts_seq db;
            comments := comments db; comments_seq := comments_seq db;
            subscribers := subscribers db;
            subscribers_seq := subscribers_seq db |}.

(** [DELETE FROM subscribers WHERE id = ?] *)
Definition deleteSubscriberRow (id : N) (db : Db) : Db :=
  {| foreign_keys := foreign_keys db;
     posts := posts db; posts_seq := posts_seq db;
     comments := comments db; comments_seq := comments_seq db;
     subscribers := filter (fun s => negb (N.eqb (subscriber_id s) id))
                      (subscribers db);
     subscribers_seq := subscribers_seq db |}.

Definition testMail (to : jsstring) : Mail :=
  {| to := to;
     subject := lit "abelashine email test";
     text := lit "Test email from abelashine";
     html := lit "<p>Test email from <strong>abelashine</strong></p>" |}.

Section Handlers.

Variable toLowerCase : jsstring -> jsstring.
Variable w : World.
Variable env : Env.

(** [router.put('/admin/posts/:id')] *)
Definition updatePost (userId : option N) (id : N) (f : PostForm) : Handler :=
  requireAuth userId (fun db tr =>
    let title := trim (field (form_title f)) in
    let content := trim (field (form_content f)) in
    match title, content with
    | _ :: _, _ :: _ =>
        let slug := Renderer.slugify toLowerCase title in
        let finalContent :=
          match form_files f with
          | [] => content
          | _ => content ++ [10%N; 10%N] ++ join [10%N] (uploadUrls f)
          end in
        match updatePostRow id title slug finalContent db with
        | Some db' => (Redirect (lit "/admin"), db', tr)
        | None => (Render (lit "admin/edit") (Some (lit "Title already used")), db, tr)
        end
    | _, _ =>
        (Render (lit "admin/edit") (Some (lit "Title and content required")), db, tr)
    end).

(** [router.delete('/admin/subscribers/:id')] *)
Definition deleteSubscriber (userId : option N) (id : N) : Handler :=
  requireAuth userId (fun db tr =>
    (Redirect (lit "/admin"), deleteSubscriberRow id db, tr)).

(** [router.get('/admin/email-test')]; no answer is given should the send
    reject. *)
Definition emailTest (userId : option N) (toField : option jsstring)
  : Db -> list Event -> option Response * Db * list Event :=
  fun db tr =>
    match userId with
    | None => (Some (Redirect (lit "/login")), db, tr)
    | Some _ =>
        match trim (field toField) with
        | [] => (Some (Send 400 (lit "Provide ?to=email@example.com")), db, tr)
        | to =>
            match sendMail w env (testMail to) tr with
            | (tr', Resolved ok) =>
                (Some (Send 200 (if ok then lit "Sent" else lit "Failed")), db, tr')
            | (tr', Rejected) => (None, db, tr')
            end
        end
    end.

End Handlers.

End RoutesMore.

(** ** The users table, log-in and the administrator scripts
    ([db.js], [routes.js], [scripts/create_admin.js],
    [scripts/send_test_email.js]) *)

Module Users.
Import Email.

Record User := {
  user_id : N;
  user_email : jsstring;
  user_hash : jsstring
}.

Record Table := {
  users : list User;
  users_seq : N
}.

Definition hasUser (email : jsstring) (t : Table) : bool :=
  existsb (fun u => eqs (user_email u) email) (users t).

(** [INSERT INTO users (email, password_hash) VALUES (?, ?)]: rejected when
    the [UNIQUE] email is taken. *)
Definition insertUser (email hash : jsstring) (t : Table) : option Table :=
  if hasUser email t then None
  else
    let id := N.succ (users_seq t) in
    Some {| users := users t ++ [{| user_id := id; user_email := email;
                                    user_hash := hash |}];
            users_seq := id |}.

(** [UPDATE users SET password_hash = ? WHERE email = ?] *)
Definition updateHash (email hash : jsstring) (t : Table) : Table :=
  {| users := List.map (fun u => if eqs (user_email u) email
                                 then {| user_id := user_id u;
                                         user_email := user_email u;
                                         user_hash := hash |}
                                 else u) (users t);
     users_seq := users_seq t |}.

(** The seeding step of [initDb]: a default administrator when the table
    has no row; [None] when the insertion is rejected.  [hash] is what
    [bcrypt.hash('admin123', 10)] gave. *)
Definition seedAdmin (hash : jsstring) (t : Table) : option Table :=
  match users t with
  | [] => insertUser (lit "admin@example.com") hash t
  | _ => Some t
  end.

Inductive Response :=
| Redirect (url : jsstring)
| Render (view : jsstring) (error : option jsstring).

Section LogIn.

(** [bcrypt.compare] *)
Variable compare : jsstring -> jsstring -> bool.

(** [router.post('/login')]: the answer and the session's [userId].  An
    absent password makes [bcrypt.compare] reject: no answer. *)
Definition login (email password : option jsstring) (t : Table)
  (session : option N) : option Response * option N :=
  match match email with
        | Some e => find (fun u => eqs (user_email u) e) (users t)
        | None => None
        end with
  | None => (Some (Render (lit "login") (Some (lit "Invalid credentials"))), session)
  | Some user =>
      match password with
      | None => (None, session)
      | Some p =>
          if compare p (user_hash user)
          then (Some (Redirect (lit "/admin")), Some (user_id user))
          else (Some (Render (lit "login") (Some (lit "Invalid credentials"))),
                session)
      end
  end.

End LogIn.

(** How a statement can fail: on the [UNIQUE] constraint, or otherwise
    (no such table, a file that cannot be written). *)
Inductive SqlError :=
| UniqueViolation
| OtherError.

Inductive Ran :=
| Done (t : Table)
| Failed (e : SqlError).

(** [run(db, 'INSERT INTO users ...')] on the file [getDb] opens.  The
    script does not call [initDb]: [None] is a file where the statement
    cannot run, a fresh one without the users table among them. *)
Definition runInsertUser (email hash : jsstring) (db : option Table) : Ran :=
  match db with
  | None => Failed OtherError
  | Some t =>
      match insertUser email hash t with
      | Some t' => Done t'
      | None => Failed UniqueViolation
      end
  end.

(** [e.message.includes('UNIQUE')] *)
Definition mentionsUnique (e : SqlError) : bool :=
  match e with UniqueViolation => true | OtherError => false end.

Section Scripts.

Variable toLowerCase : jsstring -> jsstring.

(** [scripts/create_admin.js]: the exit code and the users table.  [hashOf]
    is what [bcrypt.hash(password, 10)] gives in this run. *)
Definition createAdmin (hashOf : jsstring -> jsstring)
  (emailArg passwordArg : option jsstring) (db : option Table)
  : N * option Table :=
  let email := toLowerCase (trim (Routes.field emailArg)) in
  let password := trim (Routes.field passwordArg) in
  match email, password with
  | _ :: _, _ :: _ =>
      match runInsertUser email (hashOf password) db with
      | Done t' => (0%N, Some t')
      | Failed e =>
          if mentionsUnique e
          then (0%N, option_map (updateHash email (hashOf password)) db)
          else (1%N, db)
      end
  | _, _ => (1%N, db)
  end.

End Scripts.

(** [a || b] with a string default. *)
Definition orDefault (a : option jsstring) (d : jsstring) : jsstring :=
  match a with
  | Some (c :: s) => c :: s
  | _ => d
  end.

(** [scripts/send_test_email.js]: the exit code and the trace.  A rejected
    send would end the process with code 1. *)
Definition sendTestEmail (w : World) (env : Env) (args : list jsstring)
  : list Event -> N * list Event :=
  fun tr =>
    let subject := orDefault (nth_error args 1) (lit "abelashine test email") in
    let body := orDefault (nth_error args 2)
                  (lit "This is a test email from abelashine.") in
    match nth_error args 0 with
    | Some (c :: to) =>
        match sendMail w env {| to := c :: to; subject := subject; text := body;
                                html := lit "<p>" ++ body ++ lit "</p>" |} tr with
        | (tr', Resolved true) => (0%N, tr')
        | (tr', Resolved false) => (2%N, tr')
        | (tr', Rejected) => (1%N, tr')
        end
    | _ =>
        (1%N, tr ++ [Error (lit "Usage: node scripts/send_test_email.js <toEmail> [subject] [body]") []])
    end.

End Users.

(** ** More routes of the file/LokiJS site ([src/server.js]) *)

Module ServerMore.
Import Server.

(** [app.post('/api/posts/:slug/comments')]; [iso] is the clock's
    [toISOString()]. *)
Definition addComment (iso slug : jsstring) (name text : option jsstring)
  : State -> Response * State :=
  fun st =>
    match name, text with
    | Some (n0 :: n), Some (t0 :: t) =>
        match commentsCollection st with
        | None => (Json 500 (lit "Comments unavailable"), st)
        | Some docs =>
            (Json 200 (lit "ok"),
             {| files := files st;
                postsCollection := postsCollection st;
                commentsCollection :=
                  Some (docs ++ [{| cdoc_slug := slug; cdoc_name := n0 :: n;
                                    cdoc_text := t0 :: t;
                                    cdoc_createdAt := iso |}]) |})
        end
    | _, _ => (Json 400 (lit "Name and comment are required"), st)
    end.

(** [app.post('/admin/delete')] *)
Definition deleteSite (c : Caller) : State -> Response * State :=
  requireAdmin c (fun st =>
    (Status 200 (tpl "Site content deleted. <a href='/'>Home</a>"),
     {| files := [];
        postsCollection := option_map (fun _ => []) (postsCollection st);
        commentsCollection := commentsCollection st |})).

(** [matter(raw).data]: the title and the creation time of the front
    matter, [None] for a key it does not have. *)
Record FrontMatter := {
  fm_title : option jsstring;
  fm_createdAt : option jsstring
}.

(** [data.title || slug] and [data.createdAt || ctime] *)
Definition orElse (a : option jsstring) (d : jsstring) : jsstring :=
  match a with
  | Some (c :: s) => c :: s
  | _ => d
  end.

(** One step of the start-up backfill: the document of the file's slug is
    inserted, or the first document of that slug updated. *)
Fixpoint upsertDoc (d : PostDoc) (docs : list PostDoc) : list PostDoc :=
  match docs with
  | [] => [d]
  | d' :: docs' =>
      if eqs (doc_slug d') (doc_slug d) then d :: docs'
      else d' :: upsertDoc d docs'
  end.

Section Backfill.

(** [matter(raw)] of the gray-matter package: the front matter it reads, or
    [None] when it throws. *)
Variable matter : jsstring -> option FrontMatter.

(** [fs.statSync(filePath).ctime.toISOString()] *)
Variable ctime : jsstring -> jsstring.

(** The loop of [initDb] over the post files, inside [try { } catch (_) {}]:
    a file whose front matter cannot be read ends the loop, and what was
    inserted before stays. *)
Fixpoint backfill (fs : list (jsstring * jsstring)) (docs : list PostDoc)
  : list PostDoc :=
  match fs with
  | [] => docs
  | (slug, raw) :: fs' =>
      match matter raw with
      | Some data =>
          backfill fs'
            (upsertDoc {| doc_slug := slug;
                          doc_title := orElse (fm_title data) slug;
                          doc_createdAt := orElse (fm_createdAt data) (ctime slug) |}
                       docs)
      | None => docs
      end
  end.

(** [initDb]: both collections exist afterwards, and the post files are
    backfilled into the posts collection. *)
Definition initDb (st : State) : State :=
  let posts0 := match postsCollection st with Some d => d | None => [] end in
  let comments0 := match commentsCollection st with Some d => d | None => [] end in
  {| files := files st;
     postsCollection := Some (backfill (files st) posts0);
     commentsCollection := Some comments0 |}.

End Backfill.

(** A stand-in for [matter] on a file without front matter (no leading
    [---]: the data is empty) and on a file as [Server.stringifyPlain] writes
    it; and it throws on a front matter of another form, as the package
    does on one that is not YAML (a title that opens a bracket and does not
    close it). *)
Definition matterPlain (raw : jsstring) : option FrontMatter :=
  match strip cs_eq (lit "---" ++ [10%N]) raw with
  | None => Some {| fm_title := None; fm_createdAt := None |}
  | Some rest =>
      match strip cs_eq (lit "title: ") rest with
      | None => None
      | Some r1 =>
          match strip cs_eq ([10%N] ++ lit "createdAt: '")
                  (dropWhile (fun c => negb (N.eqb 10 c)) r1) with
          | None => None
          | Some r2 =>
              Some {| fm_title := Some (takeWhile (fun c => negb (N.eqb 10 c)) r1);
                      fm_createdAt := Some (takeWhile (fun c => negb (N.eqb 39 c)) r2) |}
          end
      end
  end.

End ServerMore.

(** ** Vocabulary of the renderer's properties *)

Module RendererSpec.
Import Renderer.

(** The text a token stands for. *)
Definition raw (t : token) : jsstring :=
  match t with Chr c => [c] | Hit u => u end.

(** What the three passes of [escapeHtml] do to one code unit. *)
Definition escapeChar (c : char) : jsstring :=
  if N.eqb AMP c then lit "&amp;"
  else if N.eqb LT c then lit "&lt;"
  else if N.eqb GT c then lit "&gt;"
  else [c].

(** The code units [escapeHtml] rewrites. *)
Definition special (c : char) : bool :=
  N.eqb AMP c || N.eqb LT c || N.eqb GT c.

(** The two URL schemes the renderer recognises. *)
Definition httpScheme (p : jsstring) : Prop :=
  p = lit "http://" \/ p = lit "https://".

Definition DOT : char := ch "."%char.

(** An escaped text: no [<], no [>], and every [&] starts one of the three
    entities [escapeHtml] writes. *)
Definition entityTail (r : jsstring) : bool :=
  isSome (strip cs_eq (lit "amp;") r)
  || isSome (strip cs_eq (lit "lt;") r)
  || isSome (strip cs_eq (lit "gt;") r).

Fixpoint escapedForm (s : jsstring) : bool :=
  match s with
  | [] => true
  | c :: r =>
      negb (N.eqb LT c) && negb (N.eqb GT c)
      && (if N.eqb AMP c then entityTail r else true)
      && escapedForm r
  end.

(** The fragments of markup the renderer itself writes. *)
Definition ownMarkup : list jsstring :=
  [ lit "<br/>"; lit "<p>"; lit "</p>";
    tpl "<div class='post-image'><img src='";
    tpl "' alt='image' loading='lazy'/></div>";
    tpl "<a href='";
    tpl "' target='_blank' rel='noopener noreferrer'>";
    lit "</a>" ].

(** An output read as a sequence of renderer markup and text. *)
Inductive piece :=
| Markup (s : jsstring)
| Text (s : jsstring).

Definition pieceText (p : piece) : jsstring :=
  match p with Markup s => s | Text s => s end.

Definition okPiece (p : piece) : Prop :=
  match p with
  | Markup s => In s ownMarkup
  | Text s => escapedForm s = true
  end.

End RendererSpec.

(** ** Vocabulary of the dispatcher's properties *)

Module EmailSpec.
Import Email.

(** The provider answered with success and a readable body. *)
Definition httpOk (a : HttpAnswer) : bool :=
  match a with
  | Response true true => true
  | _ => false
  end.

Definition smtpOk (a : SmtpAnswer) : bool :=
  match a with Accepted => true | Refused => false end.

Definition envelope (env : Env) (m : Mail) : Envelope :=
  {| from := sender env; mail := m |}.

(** A message is delivered by the provider, or else by the relay. *)
Definition delivered (w : World) (env : Env) (m : Mail) : bool :=
  (truthy (RESEND_API_KEY env) && httpOk (http w (envelope env m)))
  || (smtpConfigured env && smtpOk (smtp w (envelope env m))).

(** The delivery attempts of a trace, in order. *)
Inductive Attempt :=
| ViaHttps
| ViaSmtp.

Definition attemptsOf (tr : list Event) : list Attempt :=
  flat_map (fun ev => match ev with
                      | HttpPost _ _ => [ViaHttps]
                      | SmtpSend _ => [ViaSmtp]
                      | _ => []
                      end) tr.

(** The envelopes a trace hands to a provider. *)
Definition envelopesOf (tr : list Event) : list Envelope :=
  flat_map (fun ev => match ev with
                      | HttpPost _ e => [e]
                      | SmtpSend e => [e]
                      | _ => []
                      end) tr.

(** The sender as the specification words it: the configured from address if
    set, else the SMTP user name if set, else the fixed fallback. *)
Definition specSender (env : Env) : jsstring :=
  match MAIL_FROM env with
  | Some (c :: s) => c :: s
  | _ =>
      match SMTP_USER env with
      | Some (c :: s) => c :: s
      | _ => fallbackSender
      end
  end.


Definition isNoSenderWarning (ev : Event) : bool :=
  match ev with
  | Warn msg => eqs msg noSenderWarning
  | _ => false
  end.

End EmailSpec.

(** ** Vocabulary of the handlers' properties *)

Module RoutesSpec.
Import Email Sqlite Routes.

(** The parts of a handler's result. *)
Definition response (r : Response * Db * list Event) : Response := fst (fst r).
Definition store (r : Response * Db * list Event) : Db := snd (fst r).
Definition trace (r : Response * Db * list Event) : list Event := snd r.

(** How many subscriber records hold an address. *)
Definition emailCount (email : jsstring) (db : Db) : nat :=
  List.length (filter (fun s => eqs (subscriber_email s) email) (subscribers db)).

(** The [UNIQUE] constraints, as invariants of the tables. *)
Definition uniqueEmails (db : Db) : Prop :=
  NoDup (List.map subscriber_email (subscribers db)).

(** The comments that refer to a post. *)
Definition commentsOf (id : N) (db : Db) : list Comment :=
  filter (fun c => N.eqb (comment_post_id c) id) (comments db).

(** Nothing configured, and an outside that answers no one. *)
Definition noEnv : Env :=
  {| MAIL_FROM := None; SMTP_HOST := None; SMTP_USER := None;
     SMTP_PASS := None; RESEND_API_KEY := None |}.

Definition deadWorld : World :=
  {| http := fun _ => NetworkError; smtp := fun _ => Refused |}.

Definition noTables : Tables :=
  {| t_posts := []; t_posts_seq := 0; t_comments := []; t_comments_seq := 0;
     t_subscribers := []; t_subscribers_seq := 0 |}.

End RoutesSpec.

(** ** Vocabulary of further properties *)

Module MoreSpec.
Import Renderer.

(** [[a-z0-9]] *)
Definition isAlnum (c : char) : bool :=
  (N.leb 97 c && N.leb c 122) || (N.leb 48 c && N.leb c 57).

(** A slug: letters and digits, with single hyphens only between them.
    [prev] tells whether a hyphen may not come next (at the start, and after
    a hyphen). *)
Fixpoint slugShape (prev : bool) (s : jsstring) : bool :=
  match s with
  | [] => true
  | c :: r =>
      if isHyphen c
      then negb prev && (match r with [] => false | _ => true end)
           && slugShape true r
      else isAlnum c && slugShape false r
  end.

(** The second pass, read structurally: a run of spaces and hyphens becomes
    one hyphen ([inrun]: the run has begun). *)
Fixpoint collapse (inrun : bool) (s : jsstring) : jsstring :=
  match s with
  | [] => []
  | c :: r =>
      if spaceOrHyphen c
      then (if inrun then collapse true r else HYPHEN :: collapse true r)
      else c :: collapse false r
  end.

(** The third pass behind the leading hyphens: a run of hyphens that
    reaches the end is dropped. *)
Fixpoint dropTrailingHyphens (s : jsstring) : jsstring :=
  match s with
  | [] => []
  | c :: r => if forallb isHyphen s then [] else c :: dropTrailingHyphens r
  end.

(** The weaker shape before the edges are stripped. *)
Fixpoint innerShape (prev : bool) (s : jsstring) : bool :=
  match s with
  | [] => true
  | c :: r =>
      if isHyphen c then negb prev && innerShape true r
      else isAlnum c && innerShape false r
  end.

(** Reading the entities of [escapeHtml] back ([skip]: code units of the
    current entity still to pass over). *)
Fixpoint decodeEntities (skip : nat) (s : jsstring) : jsstring :=
  match s with
  | [] => []
  | c :: r =>
      match skip with
      | S k => decodeEntities k r
      | O =>
          if N.eqb AMP c then
            if isSome (strip cs_eq (lit "amp;") r) then AMP :: decodeEntities 4 r
            else if isSome (strip cs_eq (lit "lt;") r) then LT :: decodeEntities 3 r
            else if isSome (strip cs_eq (lit "gt;") r) then GT :: decodeEntities 3 r
            else c :: decodeEntities 0 r
          else c :: decodeEntities 0 r
      end
  end.

Definition notLF (c : char) : bool := negb (N.eqb 10 c).

(** What the upload name's replacement does to one code unit. *)
Definition sanitise (c : char) : char :=
  if Uploads.safeChar c then c else 95%N.

(** The line feeds of a text. *)
Definition countLF (s : jsstring) : nat :=
  List.length (filter (N.eqb 10) s).

(** The error and success lines of the dispatcher's log. *)
Definition isErrorLine (ev : Email.Event) : bool :=
  match ev with Email.Error _ _ => true | _ => false end.

Definition isSuccessLine (ev : Email.Event) : bool :=
  match ev with Email.Log _ _ => true | _ => false end.

(** The constraints of the posts table: unique slugs, unique ids, and no id
    above the [AUTOINCREMENT] counter. *)
Definition postsInv (db : Sqlite.Db) : Prop :=
  NoDup (List.map Sqlite.post_slug (Sqlite.posts db))
  /\ NoDup (List.map Sqlite.post_id (Sqlite.posts db))
  /\ Forall (fun p => (Sqlite.post_id p <= Sqlite.posts_seq db)%N) (Sqlite.posts db).

(** What the update of a post does to one row. *)
Definition retitle (id : N) (title slug content : jsstring) (p : Sqlite.Post) : Sqlite.Post :=
  if N.eqb (Sqlite.post_id p) id
  then {| Sqlite.post_id := Sqlite.post_id p; Sqlite.post_title := title; Sqlite.post_slug := slug;
          Sqlite.post_content := content |}
  else p.

(** The [UNIQUE] email of the users table. *)
Definition uniqueUsers (t : Users.Table) : Prop :=
  NoDup (List.map Users.user_email (Users.users t)).

(** A directory holds one file per name. *)
Definition uniqueFiles (st : Server.State) : Prop :=
  NoDup (List.map fst (Server.files st)).

(** The document the backfill derives from a post file: the title and the
    creation time of its front matter, or else its slug and the file's
    change time. *)
Definition docOf (ctime : jsstring -> jsstring) (slug : jsstring)
  (data : ServerMore.FrontMatter) : Server.PostDoc :=
  {| Server.doc_slug := slug;
     Server.doc_title := ServerMore.orElse (ServerMore.fm_title data) slug;
     Server.doc_createdAt :=
       ServerMore.orElse (ServerMore.fm_createdAt data) (ctime slug) |}.

(** The files up to the first one whose front matter cannot be read, each
    with its front matter. *)
Fixpoint readable (matter : jsstring -> option ServerMore.FrontMatter)
  (fs : list (jsstring * jsstring)) : list (jsstring * ServerMore.FrontMatter) :=
  match fs with
  | [] => []
  | (slug, raw) :: fs' =>
      match matter raw with
      | Some data => (slug, data) :: readable matter fs'
      | None => []
      end
  end.

(** One step of the backfill. *)
Definition backfillStep (ctime : jsstring -> jsstring)
  (docs : list Server.PostDoc) (kv : jsstring * ServerMore.FrontMatter)
  : list Server.PostDoc :=
  ServerMore.upsertDoc (docOf ctime (fst kv) (snd kv)) docs.

(** A state with other files. *)
Definition withFiles (fs : list (jsstring * jsstring)) (st : Server.State)
  : Server.State :=
  {| Server.files := fs;
     Server.postsCollection := Server.postsCollection st;
     Server.commentsCollection := Server.commentsCollection st |}.

Definition findDoc (slug : jsstring) (docs : list Server.PostDoc)
  : option Server.PostDoc :=
  find (fun d => eqs (Server.doc_slug d) slug) docs.

End MoreSpec.

(** ** Properties of the renderer *)

Module RendererFacts.
Import Renderer RendererSpec.

(** *** Strings *)

Lemma eqs_refl (s : jsstring) : eqs s s = true.
Proof. induction s as [|c s IH]; simpl; [|rewrite N.eqb_refl]; auto. Qed.

Lemma isSpace_spec (c : char) :
  isSpace c = true <->
  ((9 <= c <= 13) \/ c = 32 \/ c = 160 \/ c = 5760 \/ (8192 <= c <= 8202)
   \/ c = 8232 \/ c = 8233 \/ c = 8239 \/ c = 8287 \/ c = 12288
   \/ c = 65279)%N.
Proof.
  unfold isSpace.
  rewrite !orb_true_iff, !andb_true_iff, !N.leb_le, !N.eqb_eq. tauto.
Qed.

Lemma strip_app eqc (p s r : jsstring) :
  strip eqc p s = Some r -> exists u, s = u ++ r /\ List.length u = List.length p.
Proof.
  revert s. induction p as [|a p IH]; simpl; intros s H.
  - injection H as <-. now exists [].
  - destruct s as [|c s]; [discriminate|].
    destruct (eqc a c); [|discriminate].
    destruct (IH _ H) as (u & -> & L). exists (c :: u). simpl. auto.
Qed.

Lemma strip_cs (p s r : jsstring) :
  strip cs_eq p s = Some r -> s = p ++ r.
Proof.
  revert s. induction p as [|a p IH]; simpl; intros s H.
  - now injection H as <-.
  - destruct s as [|c s]; [discriminate|]. unfold cs_eq in H at 1.
    destruct (N.eqb_spec a c); [|discriminate]. subst. f_equal. auto.
Qed.

Lemma ci_eq_lower (c : char) : ci_eq (asciiLowerChar c) c = true.
Proof.
  unfold ci_eq, asciiLowerChar, asciiUpper.
  destruct (N.leb_spec 65 c); destruct (N.leb_spec c 90); simpl;
    try (rewrite N.eqb_refl; reflexivity).
  apply orb_true_iff. right. apply andb_true_iff. split.
  - apply N.ltb_lt. lia.
  - destruct (N.leb_spec 97 (c + 32)); destruct (N.leb_spec (c + 32) 122);
      destruct (N.leb_spec 97 c); destruct (N.leb_spec c 122); simpl;
      apply N.eqb_eq; lia.
Qed.

Lemma strip_ci_lower (e r : jsstring) :
  strip ci_eq (asciiLower e) (e ++ r) = Some r.
Proof.
  induction e as [|c e IH]; simpl; [reflexivity|].
  now rewrite ci_eq_lower.
Qed.

Lemma nonSpace_lower (c : char) :
  nonSpace (asciiLowerChar c) = true -> nonSpace c = true.
Proof.
  unfold nonSpace. rewrite !negb_true_iff.
  intros H. destruct (isSpace c) eqn:E; [|reflexivity].
  rewrite <- H. symmetry. apply isSpace_spec in E. apply isSpace_spec.
  unfold asciiLowerChar.
  destruct (N.leb_spec 65 c); destruct (N.leb_spec c 90); simpl; lia.
Qed.

Lemma takeWhile_all p (s : jsstring) :
  forallb p s = true -> takeWhile p s = s.
Proof.
  induction s as [|c s IH]; simpl; [reflexivity|].
  intros H. apply andb_true_iff in H as [-> H]. f_equal. auto.
Qed.

(** *** Tokenisation *)

(** The tokens of a string spell it, whatever the matcher. *)
Lemma tokens_raw m (s : jsstring) (k : nat) :
  (forall s' n, m s' = Some n -> 1 <= n) ->
  flat_map raw (tokens m k s) = skipn k s.
Proof.
  intros Hm. revert k. induction s as [|c r IH]; intros k.
  - now destruct k.
  - destruct k as [|k]; simpl; [|apply IH].
    destruct (m (c :: r)) as [n|] eqn:E; simpl.
    + rewrite IH. apply Hm in E. destruct n as [|n]; [lia|]. simpl.
      now rewrite firstn_skipn.
    + now rewrite IH.
Qed.

Lemma tokens_oneOf p (s : jsstring) :
  tokens (oneOf p) 0 s = List.map (fun c => if p c then Hit [c] else Chr c) s.
Proof.
  induction s as [|c r IH]; simpl; [reflexivity|].
  destruct (p c); simpl; now rewrite IH.
Qed.

Lemma replace_oneOf p x (s : jsstring) :
  replace (oneOf p) (fun _ => x) s = flat_map (fun c => if p c then x else [c]) s.
Proof.
  unfold replace. rewrite tokens_oneOf, flat_map_concat_map, map_map.
  rewrite flat_map_concat_map. f_equal. apply map_ext.
  intros c. now destruct (p c).
Qed.

Lemma flat_map_flat_map {A B C} (f : A -> list B) (g : B -> list C) l :
  flat_map g (flat_map f l) = flat_map (fun a => flat_map g (f a)) l.
Proof.
  induction l as [|a l IH]; simpl; [reflexivity|].
  now rewrite flat_map_app, IH.
Qed.

(** *** [escapeHtml] *)

Lemma escapeHtml_pointwise (s : jsstring) :
  escapeHtml s = flat_map escapeChar s.
Proof.
  unfold escapeHtml. rewrite !replace_oneOf, !flat_map_flat_map.
  apply flat_map_ext. intros c. unfold escapeChar.
  destruct (N.eqb AMP c) eqn:Ea.
  { apply N.eqb_eq in Ea. subst c. reflexivity. }
  cbn [flat_map]. rewrite app_nil_r.
  destruct (N.eqb LT c) eqn:El.
  { apply N.eqb_eq in El. subst c. reflexivity. }
  cbn [flat_map]. rewrite app_nil_r. reflexivity.
Qed.

Lemma escapeHtml_plain (s : jsstring) :
  forallb (fun c => negb (special c)) s = true -> escapeHtml s = s.
Proof.
  rewrite escapeHtml_pointwise.
  induction s as [|c s IH]; simpl; [reflexivity|].
  intros H. apply andb_true_iff in H as [Hc H]. rewrite (IH H).
  unfold special in Hc. apply negb_true_iff in Hc.
  apply orb_false_iff in Hc as [Hc Hg]. apply orb_false_iff in Hc as [Ha Hl].
  unfold escapeChar. now rewrite Ha, Hl, Hg.
Qed.

(** *** A line that is one image URL *)

Lemma test_head m (s : jsstring) : m s = true -> test m s = true.
Proof. intros H. destruct s; simpl; now rewrite H. Qed.

Lemma scheme_prefix eqc (p rest : jsstring) :
  (eqc = cs_eq \/ eqc = ci_eq) -> httpScheme p ->
  scheme eqc (p ++ rest) = Some rest.
Proof. intros [->| ->] [->| ->]; reflexivity. Qed.

Lemma dotExt_hit (ext r : jsstring) :
  In (asciiLower ext) extensions -> In r (dotExt (DOT :: ext ++ r)).
Proof.
  intros H. unfold dotExt. apply in_flat_map. exists (asciiLower ext).
  split; [exact H|].
  assert (E : strip ci_eq (ch "."%char :: asciiLower ext) (DOT :: ext ++ r)
              = Some r).
  { change (strip ci_eq (asciiLower (DOT :: ext)) ((DOT :: ext) ++ r) = Some r).
    apply strip_ci_lower. }
  rewrite E. now left.
Qed.

Lemma bodyThenExt_hit (body ext : jsstring) :
  body <> [] -> forallb nonSpace body = true ->
  In (asciiLower ext) extensions ->
  bodyThenExt (body ++ DOT :: ext) = true.
Proof.
  intros Hne Hns Hext. induction body as [|c body IH]; [contradiction|].
  simpl in Hns. apply andb_true_iff in Hns as [Hc Hns].
  simpl. rewrite Hc. simpl. destruct body as [|d body].
  - simpl. pose proof (dotExt_hit ext [] Hext) as Hin.
    rewrite app_nil_r in Hin. destruct (dotExt (DOT :: ext)); [destruct Hin|].
    reflexivity.
  - rewrite IH; [apply orb_true_r|discriminate|exact Hns].
Qed.

Lemma extension_nonSpace (ext : jsstring) :
  In (asciiLower ext) extensions -> forallb nonSpace ext = true.
Proof.
  intros H.
  assert (L : forallb nonSpace (asciiLower ext) = true).
  { unfold extensions in H. simpl in H.
    repeat (destruct H as [<-|H]; [reflexivity|]). destruct H. }
  clear H. induction ext as [|c ext IH]; [reflexivity|].
  simpl in *. apply andb_true_iff in L as [Lc L].
  now rewrite (nonSpace_lower _ Lc), IH.
Qed.

Lemma urlRegex_whole (p rest : jsstring) :
  httpScheme p -> rest <> [] -> forallb nonSpace rest = true ->
  urlRegex (p ++ rest) = Some (List.length (p ++ rest)).
Proof.
  intros Hp Hne Hns. unfold urlRegex.
  rewrite (scheme_prefix rest (or_introl eq_refl) Hp).
  rewrite (takeWhile_all _ _ Hns).
  destruct rest as [|c rest]; [contradiction|].
  f_equal. rewrite length_app. lia.
Qed.

Lemma standaloneImage_url (p body ext : jsstring) :
  httpScheme p -> body <> [] -> forallb nonSpace body = true ->
  In (asciiLower ext) extensions ->
  standaloneImage (p ++ body ++ DOT :: ext) = true.
Proof.
  intros Hp Hne Hns Hext. unfold standaloneImage.
  apply andb_true_iff. split.
  - apply test_head. unfold imageRegexAt.
    rewrite (scheme_prefix _ (or_intror eq_refl) Hp).
    now apply bodyThenExt_hit.
  - assert (U : urlRegex (p ++ body ++ DOT :: ext)
                = Some (List.length (p ++ body ++ DOT :: ext))).
    { apply urlRegex_whole; [exact Hp|now destruct body|].
      rewrite forallb_app, Hns. simpl.
      now rewrite (extension_nonSpace _ Hext). }
    destruct (p ++ body ++ DOT :: ext) as [|c r] eqn:E.
    + destruct Hp as [->| ->]; discriminate.
    + cbn [firstMatch]. rewrite U, firstn_all. apply eqs_refl.
Qed.

(** *** No raw markup from the text *)

Lemma escapedForm_escapeHtml (s : jsstring) : escapedForm (escapeHtml s) = true.
Proof.
  rewrite escapeHtml_pointwise. induction s as [|c s IH]; [reflexivity|].
  cbn [flat_map]. unfold escapeChar.
  destruct (N.eqb AMP c) eqn:Ea; [exact IH|].
  destruct (N.eqb LT c) eqn:El; [exact IH|].
  destruct (N.eqb GT c) eqn:Eg; [exact IH|].
  cbn [app escapedForm]. now rewrite Ea, El, Eg.
Qed.

Lemma urlRegex_pos (s : jsstring) (n : nat) : urlRegex s = Some n -> 1 <= n.
Proof.
  unfold urlRegex. destruct (scheme cs_eq s) as [r|]; [|discriminate].
  destruct (takeWhile nonSpace r) as [|c run]; [discriminate|].
  intros H. injection H as <-. simpl. lia.
Qed.

Lemma urlRegex_head (c : char) (r : jsstring) :
  N.eqb (ch "h"%char) c = false -> urlRegex (c :: r) = None.
Proof.
  intros H. unfold urlRegex, scheme. cbn [lit list_ascii_of_string List.map strip].
  unfold cs_eq at 1. change (N_of_ascii "h") with (ch "h"%char). now rewrite H.
Qed.

Lemma linkOne_pieces (u : jsstring) :
  exists ps, linkOne u = flat_map pieceText ps /\ Forall okPiece ps.
Proof.
  pose proof (escapedForm_escapeHtml u) as E. unfold linkOne.
  destruct (isImg u).
  - exists [Markup (tpl "<div class='post-image'><img src='");
            Text (escapeHtml u);
            Markup (tpl "' alt='image' loading='lazy'/></div>")].
    split.
    + unfold imageElement. cbn [flat_map pieceText]. now rewrite app_nil_r.
    + repeat (apply Forall_cons); try apply Forall_nil;
        cbv [okPiece ownMarkup In]; auto 10.
  - exists [Markup (tpl "<a href='"); Text (escapeHtml u);
            Markup (tpl "' target='_blank' rel='noopener noreferrer'>");
            Text (escapeHtml u); Markup (lit "</a>")].
    split.
    + unfold anchorElement. cbn [flat_map pieceText]. now rewrite app_nil_r.
    + repeat (apply Forall_cons); try apply Forall_nil;
        cbv [okPiece ownMarkup In]; auto 10.
Qed.

Lemma entityTail_inv (r : jsstring) :
  entityTail r = true ->
  exists e r', r = e ++ r' /\ In e [lit "amp;"; lit "lt;"; lit "gt;"].
Proof.
  unfold entityTail. intros H.
  apply orb_true_iff in H as [H|H]; [apply orb_true_iff in H as [H|H]|].
  - destruct (strip cs_eq (lit "amp;") r) as [r'|] eqn:E; [|discriminate].
    exists (lit "amp;"), r'. split; [now apply strip_cs|simpl; auto].
  - destruct (strip cs_eq (lit "lt;") r) as [r'|] eqn:E; [|discriminate].
    exists (lit "lt;"), r'. split; [now apply strip_cs|simpl; auto].
  - destruct (strip cs_eq (lit "gt;") r) as [r'|] eqn:E; [|discriminate].
    exists (lit "gt;"), r'. split; [now apply strip_cs|simpl; auto].
Qed.

Lemma escapedForm_tail (c : char) (r : jsstring) :
  escapedForm (c :: r) = true -> escapedForm r = true.
Proof. simpl. intros H. now apply andb_true_iff in H as [_ H]. Qed.

Lemma escapedForm_skip (e r : jsstring) :
  escapedForm (e ++ r) = true -> escapedForm r = true.
Proof.
  induction e as [|c e IH]; [auto|]. intros H. apply IH.
  exact (escapedForm_tail _ _ H).
Qed.

(** The paragraph body: the escaped line with its URL matches replaced. *)
Lemma linkify_pieces (n : nat) : forall (e : jsstring) (k : nat),
  List.length e <= n -> escapedForm e = true ->
  exists ps, flat_map (subst linkOne) (tokens urlRegex k e)
             = flat_map pieceText ps /\ Forall okPiece ps.
Proof.
  induction n as [|n IH]; intros e k L E.
  { destruct e; [|simpl in L; lia]. exists []. now split. }
  destruct e as [|c r]; [exists []; now split|].
  simpl in L. assert (Lr : List.length r <= n) by lia.
  pose proof (escapedForm_tail _ _ E) as Er.
  destruct k as [|k]; [|exact (IH r k Lr Er)].
  cbn [tokens]. destruct (urlRegex (c :: r)) as [m|] eqn:U.
  - destruct (linkOne_pieces (firstn m (c :: r))) as (p1 & E1 & F1).
    destruct (IH r (Nat.pred m) Lr Er) as (p2 & E2 & F2).
    exists (p1 ++ p2). split.
    + cbn [flat_map subst]. now rewrite flat_map_app, E1, E2.
    + now apply Forall_app.
  - cbn [flat_map subst]. destruct (N.eqb AMP c) eqn:Ea.
    + assert (T : entityTail r = true).
      { cbn [escapedForm] in E. rewrite Ea in E.
        apply andb_true_iff in E as [E _]. now apply andb_true_iff in E as [_ E]. }
      destruct (entityTail_inv _ T) as (ent & r' & -> & Hent).
      assert (Lr' : List.length r' <= n).
      { rewrite length_app in Lr. lia. }
      destruct (IH r' 0 Lr' (escapedForm_skip _ _ Er)) as (p2 & E2 & F2).
      exists (Text (c :: ent) :: p2). split.
      * cbn [flat_map pieceText]. rewrite <- E2.
        simpl in Hent.
        destruct Hent as [<-|[<-|[<-|[]]]]; cbn [lit list_ascii_of_string List.map app tokens];
          repeat (rewrite urlRegex_head by reflexivity; cbn [flat_map subst app]);
          reflexivity.
      * constructor; [|exact F2]. apply N.eqb_eq in Ea. subst c.
        simpl in Hent. destruct Hent as [<-|[<-|[<-|[]]]]; reflexivity.
    + destruct (IH r 0 Lr Er) as (p2 & E2 & F2).
      exists (Text [c] :: p2). split.
      * cbn [flat_map pieceText]. now rewrite E2.
      * constructor; [|exact F2]. cbn [okPiece escapedForm] in E |- *.
        rewrite Ea in *.
        apply andb_true_iff in E as [E _]. now rewrite E.
Qed.

(** *** A line that is one URL *)

Lemma dropWhile_head p (c : char) (s : jsstring) :
  p c = false -> dropWhile p (c :: s) = c :: s.
Proof. intros H. simpl. now rewrite H. Qed.

Lemma trim_nonSpace (s : jsstring) : forallb nonSpace s = true -> trim s = s.
Proof.
  intros H. unfold trim, trimStart, trimEnd.
  assert (D : forall t, forallb nonSpace t = true -> dropWhile isSpace t = t).
  { intros [|c t]; [reflexivity|]. simpl. intros Ht.
    apply andb_true_iff in Ht as [Hc _]. unfold nonSpace in Hc.
    apply negb_true_iff in Hc. now rewrite Hc. }
  rewrite (D s H), D; [apply rev_involutive|].
  apply forallb_forall. intros x Hx. apply in_rev in Hx.
  exact (proj1 (forallb_forall _ _) H x Hx).
Qed.

Lemma tokens_skip_all m (s : jsstring) (k : nat) :
  List.length s <= k -> tokens m k s = [].
Proof.
  revert k. induction s as [|c s IH]; intros k L; [reflexivity|].
  simpl in L. destruct k as [|k]; [lia|]. simpl. apply IH. lia.
Qed.

Lemma escapeChar_nonSpace (c : char) :
  nonSpace c = true -> forallb nonSpace (escapeChar c) = true.
Proof.
  intros H. unfold escapeChar.
  destruct (N.eqb AMP c); [reflexivity|].
  destruct (N.eqb LT c); [reflexivity|].
  destruct (N.eqb GT c); [reflexivity|]. simpl. now rewrite H.
Qed.

Lemma escapeHtml_nonSpace (s : jsstring) :
  forallb nonSpace s = true -> forallb nonSpace (escapeHtml s) = true.
Proof.
  rewrite escapeHtml_pointwise. induction s as [|c s IH]; [reflexivity|].
  simpl. intros H. apply andb_true_iff in H as [Hc H].
  now rewrite forallb_app, (escapeChar_nonSpace _ Hc), IH.
Qed.

Lemma escapeHtml_nonempty (s : jsstring) : s <> [] -> escapeHtml s <> [].
Proof.
  rewrite escapeHtml_pointwise. destruct s as [|c s]; [contradiction|].
  intros _. simpl. unfold escapeChar.
  destruct (N.eqb AMP c); [discriminate|].
  destruct (N.eqb LT c); [discriminate|].
  destruct (N.eqb GT c); discriminate.
Qed.

Lemma escapeHtml_scheme (p rest : jsstring) :
  httpScheme p -> escapeHtml (p ++ rest) = p ++ escapeHtml rest.
Proof.
  intros Hp. rewrite !escapeHtml_pointwise, flat_map_app. f_equal.
  destruct Hp as [->| ->]; reflexivity.
Qed.

(** A line that is one URL and no image: one anchor, whose address is the
    URL escaped twice. *)
Lemma url_line_anchor (p rest : jsstring) :
  httpScheme p -> rest <> [] -> forallb nonSpace rest = true ->
  standaloneImage (p ++ rest) = false ->
  isImg (escapeHtml (p ++ rest)) = false ->
  renderLine (p ++ rest)
  = lit "<p>" ++ anchorElement (escapeHtml (escapeHtml (p ++ rest))) ++ lit "</p>".
Proof.
  intros Hp Hne Hns Hstand Himg.
  assert (Hall : forallb nonSpace (p ++ rest) = true).
  { rewrite forallb_app, Hns. destruct Hp as [->| ->]; reflexivity. }
  unfold renderLine. rewrite (trim_nonSpace _ Hall), Hstand.
  destruct (p ++ rest) as [|c u] eqn:E.
  { destruct Hp as [->| ->]; discriminate. }
  rewrite <- E in *. clear E c u. do 2 f_equal.
  unfold linkify, replace.
  assert (U : urlRegex (escapeHtml (p ++ rest))
              = Some (List.length (escapeHtml (p ++ rest)))).
  { rewrite (escapeHtml_scheme _ Hp).
    apply urlRegex_whole;
      [exact Hp|now apply escapeHtml_nonempty|now apply escapeHtml_nonSpace]. }
  destruct (escapeHtml (p ++ rest)) as [|c u] eqn:E.
  { rewrite (escapeHtml_scheme _ Hp) in E. destruct Hp as [->| ->]; discriminate. }
  cbn [tokens]. rewrite U, firstn_all. cbn [List.length Nat.pred].
  rewrite tokens_skip_all by apply le_n. cbn [flat_map subst].
  rewrite app_nil_r. unfold linkOne. now rewrite Himg.
Qed.

End RendererFacts.

(** ** Properties of the dispatcher *)

Module EmailFacts.
Import Email EmailSpec.

Ltac run_send :=
  cbv [sendMail viaResend createTransport fetchResend readBody transportSend
       bind ret throw tryCatch emit fst snd negb andb orb].

Ltac env_fields :=
  cbn [MAIL_FROM SMTP_HOST SMTP_USER SMTP_PASS RESEND_API_KEY].

(** A send extends the trace it is given and resolves with [delivered]. *)
Lemma sendMail_run (w : World) (env : Env) (m : Mail) (tr : list Event) :
  sendMail w env m tr
  = (tr ++ fst (sendMail w env m []), Resolved (delivered w env m)).
Proof.
  unfold delivered, smtpConfigured, envelope.
  destruct env as [mf host user pass key]. env_fields. run_send. env_fields.
  set (e := {| from := _; mail := m |}).
  destruct (truthy mf) eqn:Emf; destruct (truthy user) eqn:Eu;
  destruct (truthy host) eqn:Eh; destruct (truthy pass) eqn:Ep;
  destruct key as [[|c k]|]; cbn [truthy andb orb negb];
  try (destruct (http w e) as [|[|] [|]]); cbn [httpOk andb orb];
  try (destruct (smtp w e)); cbn [smtpOk andb orb app];
  rewrite <- ?app_assoc; try rewrite app_nil_r; reflexivity.
Qed.

Lemma allSettled_sends (w : World) (env : Env) (ms : list Mail) :
  forall tr, exists tr',
    allSettled (List.map (sendMail w env) ms) tr
    = (tr ++ tr',
       Resolved (List.map (fun m => Resolved (delivered w env m)) ms)).
Proof.
  induction ms as [|m ms IH]; intros tr.
  - exists []. cbn. now rewrite app_nil_r.
  - cbn [List.map allSettled]. rewrite sendMail_run.
    destruct (IH (tr ++ fst (sendMail w env m []))) as (tr' & ->).
    exists (fst (sendMail w env m []) ++ tr'). now rewrite app_assoc.
Qed.

Lemma countFulfilled_resolved {A B} (f : A -> B) (l : list A) :
  Routes.countFulfilled (List.map (fun a => Resolved (f a)) l) = List.length l.
Proof.
  unfold Routes.countFulfilled. induction l as [|a l IH]; [reflexivity|].
  cbn. now rewrite IH.
Qed.

(** A batch logs every send as sent and none as failed. *)
Lemma batch_counts (w : World) (env : Env) (label : jsstring) (ms : list Mail)
  (tr : list Event) :
  exists tr',
    fst ((results <- allSettled (List.map (sendMail w env) ms) ;;
          Routes.logBatch label results) tr)
    = tr ++ tr' ++ [Count label (List.length ms) (List.length ms) 0].
Proof.
  destruct (allSettled_sends w env ms tr) as (tr' & E).
  exists tr'. unfold bind. rewrite E. unfold Routes.logBatch, emit. cbn [fst].
  rewrite countFulfilled_resolved, length_map, Nat.sub_diag.
  now rewrite app_assoc.
Qed.

End EmailFacts.

(** ** Properties of the handlers *)

Module RoutesFacts.
Import Email Sqlite Routes RoutesSpec EmailSpec EmailFacts.

Lemma eqs_eq (a b : jsstring) : eqs a b = true <-> a = b.
Proof.
  revert b. induction a as [|x a IH]; intros [|y b]; simpl;
    try (split; [discriminate|discriminate]); [tauto|].
  rewrite andb_true_iff, N.eqb_eq, IH. split; [intros [-> ->]|intros [= -> ->]]; auto.
Qed.

Lemma eqs_same (a : jsstring) : eqs a a = true.
Proof. now apply eqs_eq. Qed.

Lemma count_none {A} (p : A -> bool) (l : list A) :
  existsb p l = false -> List.length (filter p l) = 0.
Proof.
  induction l as [|a l IH]; simpl; [auto|].
  intros H. apply orb_false_iff in H as [-> H]. auto.
Qed.

Lemma count_unique (email : jsstring) (l : list Subscriber) :
  NoDup (List.map subscriber_email l) ->
  existsb (fun s => eqs (subscriber_email s) email) l = true ->
  List.length (filter (fun s => eqs (subscriber_email s) email) l) = 1.
Proof.
  induction l as [|s l IH]; simpl; [discriminate|].
  intros N H. inversion N as [|? ? Hnotin N']; subst.
  destruct (eqs (subscriber_email s) email) eqn:E.
  - simpl. f_equal. apply count_none.
    destruct (existsb _ l) eqn:X; [|reflexivity].
    apply existsb_exists in X as (s' & Hin & E').
    apply eqs_eq in E, E'. exfalso. apply Hnotin. rewrite E.
    rewrite <- E'. now apply in_map.
  - simpl in H. auto.
Qed.

Lemma filter_length_app {A} (p : A -> bool) (l l' : list A) :
  List.length (filter p (l ++ l'))
  = List.length (filter p l) + List.length (filter p l').
Proof. now rewrite filter_app, length_app. Qed.

(** *** The subscribers table *)

Lemma insertSubscriber_taken (email : jsstring) (db : Db) :
  hasEmail email db = true -> insertSubscriber email db = None.
Proof. unfold insertSubscriber. now intros ->. Qed.

Lemma insertSubscriber_fresh (email : jsstring) (db db' : Db) :
  insertSubscriber email db = Some db' ->
  hasEmail email db = false
  /\ hasEmail email db' = true
  /\ emailCount email db' = 1
  /\ (uniqueEmails db -> uniqueEmails db').
Proof.
  unfold insertSubscriber. destruct (hasEmail email db) eqn:E; [discriminate|].
  intros [= <-]. split; [reflexivity|]. unfold hasEmail, emailCount, uniqueEmails.
  cbn [subscribers]. repeat split.
  - rewrite existsb_app. cbn. rewrite eqs_same. now rewrite orb_true_r.
  - rewrite filter_length_app, (count_none _ _ E). cbn. now rewrite eqs_same.
  - intros N. rewrite map_app. cbn.
    apply NoDup_app; [exact N|repeat constructor; auto|].
    intros a Ha [<-|[]]. apply in_map_iff in Ha as (s & Es & Hin).
    assert (X : existsb (fun s => eqs (subscriber_email s) email) (subscribers db)
                = true).
    { apply existsb_exists. exists s. split; [exact Hin|]. now apply eqs_eq. }
    unfold hasEmail in E. congruence.
Qed.

(** *** The posts table *)

Lemma insertPost_taken (title slug content : jsstring) (db : Db) :
  hasSlug slug db = true -> insertPost title slug content db = None.
Proof. unfold insertPost. now intros ->. Qed.

Lemma insertPost_fresh (title slug content : jsstring) (db db' : Db) :
  insertPost title slug content db = Some db' ->
  hasSlug slug db' = true
  /\ In {| post_id := N.succ (posts_seq db); post_title := title;
           post_slug := slug; post_content := content |} (posts db').
Proof.
  unfold insertPost. destruct (hasSlug slug db); [discriminate|].
  intros [= <-]. unfold hasSlug. cbn [posts]. split.
  - rewrite existsb_app. cbn. rewrite eqs_same. now rewrite orb_true_r.
  - apply in_or_app. right. now left.
Qed.

(** Deleting the row of no post changes nothing. *)
Lemma deletePostRow_absent (id : N) (db : Db) :
  existsb (fun p => N.eqb (post_id p) id) (posts db) = false ->
  deletePostRow id db = db.
Proof.
  intros H. unfold deletePostRow. rewrite H, andb_false_r.
  destruct db as [fk ps pq cs cq ss sq]. cbn in *. f_equal.
  induction ps as [|p ps IH]; [reflexivity|].
  simpl in *. apply orb_false_iff in H as [-> H]. simpl. f_equal. auto.
Qed.

(** On a connection that enforces foreign keys the comments of a deleted
    post go with it. *)
Lemma deletePostRow_cascades (id : N) (db : Db) :
  foreign_keys db = true ->
  existsb (fun p => N.eqb (post_id p) id) (posts db) = true ->
  commentsOf id (deletePostRow id db) = [].
Proof.
  intros Hfk H. unfold commentsOf, deletePostRow. cbn [comments].
  rewrite Hfk, H. cbn [andb].
  induction (comments db) as [|c cs IH]; [reflexivity|].
  simpl. destruct (N.eqb (comment_post_id c) id) eqn:E; simpl; [exact IH|].
  now rewrite E.
Qed.

(** Without enforcement the comments table is left as it was. *)
Lemma deletePostRow_keeps_comments (id : N) (db : Db) :
  foreign_keys db = false -> comments (deletePostRow id db) = comments db.
Proof. intros H. unfold deletePostRow. cbn [comments]. now rewrite H. Qed.

(** *** The file/LokiJS site *)

(** Deleting a post there removes every comment of its slug. *)
Lemma server_delete_removes_comments (slug : jsstring) (st : Server.State)
  (docs : list Server.CommentDoc) :
  Server.commentsCollection
    (snd (Server.deletePost {| Server.isAdmin := true; Server.wantsJson := false |}
            slug st)) = Some docs ->
  forall c, In c docs -> Server.cdoc_slug c <> slug.
Proof.
  cbn. destruct (Server.commentsCollection st) as [cs|]; [|discriminate].
  cbn. intros [= <-] c Hin. unfold Server.findAndRemove in Hin.
  apply filter_In in Hin as [_ H]. apply negb_true_iff in H.
  intros E. apply eqs_eq in E. congruence.
Qed.

(** Publishing there never answers with a conflict: the file of the slug
    is written whatever was stored under it. *)
Lemma server_publish_writes (pkg : jsstring -> jsstring)
  (stringify : jsstring -> jsstring -> jsstring -> option jsstring) (now : N)
  (iso iso' t b raw : jsstring) (c0 b0 : char) (st : Server.State) :
  stringify (b0 :: b) (c0 :: t) iso = Some raw ->
  let r := Server.publish pkg stringify
             {| Server.isAdmin := true; Server.wantsJson := false |}
             now iso iso' (Some (c0 :: t)) (Some (b0 :: b)) st in
  fst r = Server.Redirect (lit "/p/" ++ Server.slugFor pkg now (c0 :: t))
  /\ Server.readFile (Server.slugFor pkg now (c0 :: t)) (Server.files (snd r))
     = Some raw.
Proof.
  intros S. unfold Server.publish, Server.requireAdmin. cbn [Server.isAdmin].
  rewrite S. cbn [fst snd Server.files]. split; [reflexivity|].
  induction (Server.files st) as [|[k v] fs IH]; cbn [Server.writeFile Server.readFile].
  - now rewrite eqs_same.
  - destruct (eqs k _) eqn:E; cbn [Server.readFile]; rewrite E; [reflexivity|exact IH].
Qed.

End RoutesFacts.

(** ** Properties of [slugify] *)

Module SlugFacts.
Import Renderer RendererSpec RendererFacts MoreSpec.

Lemma filter_pass (s : jsstring) :
  replace (oneOf (fun c => negb (slugChar c))) (fun _ => []) s
  = filter slugChar s.
Proof.
  rewrite replace_oneOf. induction s as [|c s IH]; [reflexivity|].
  simpl. rewrite IH. now destruct (slugChar c).
Qed.

Lemma runOf_step p (c : char) (r : jsstring) :
  runOf p (c :: r)
  = if p c then Some (S (List.length (takeWhile p r))) else None.
Proof. unfold runOf. simpl. now destruct (p c). Qed.

Lemma collapse_pass (s : jsstring) :
  flat_map (subst (fun _ => lit "-")) (tokens (runOf spaceOrHyphen) 0 s)
  = collapse false s
  /\ flat_map (subst (fun _ => lit "-"))
       (tokens (runOf spaceOrHyphen)
          (List.length (takeWhile spaceOrHyphen s)) s)
     = collapse true s.
Proof.
  induction s as [|c r [IH0 IH1]]; [now split|].
  assert (A : flat_map (subst (fun _ => lit "-"))
                (tokens (runOf spaceOrHyphen) 0 (c :: r))
              = collapse false (c :: r)).
  { cbn [tokens]. rewrite runOf_step. cbn [collapse].
    destruct (spaceOrHyphen c).
    - cbn [flat_map subst Nat.pred]. now rewrite IH1.
    - cbn [flat_map subst]. now rewrite IH0. }
  split; [exact A|].
  cbn [takeWhile collapse]. destruct (spaceOrHyphen c) eqn:E.
  - cbn [List.length tokens]. exact IH1.
  - cbn [List.length]. rewrite A. cbn [collapse]. now rewrite E.
Qed.

Lemma takeWhile_length_all p (s : jsstring) :
  List.length (takeWhile p s) = List.length s -> forallb p s = true.
Proof.
  induction s as [|c s IH]; [reflexivity|]. simpl.
  destruct (p c); simpl; [|discriminate]. intros [= H]. auto.
Qed.

Lemma takeWhile_forallb p (s : jsstring) :
  forallb p s = true -> takeWhile p s = s.
Proof. apply takeWhile_all. Qed.

Lemma tokens_skip m (s : jsstring) (k : nat) :
  tokens m k s = tokens m 0 (skipn k s).
Proof.
  revert k. induction s as [|c s IH]; intros [|k]; try reflexivity.
  simpl tokens at 1. rewrite IH. reflexivity.
Qed.

Lemma skipn_takeWhile p (s : jsstring) :
  skipn (List.length (takeWhile p s)) s = dropWhile p s.
Proof.
  induction s as [|c s IH]; [reflexivity|]. simpl.
  destruct (p c); [exact IH|reflexivity].
Qed.

Lemma trailing_pass (s : jsstring) :
  flat_map (subst (fun _ => [])) (tokens (edgeHyphens false) 0 s)
  = dropTrailingHyphens s.
Proof.
  induction s as [|c r IH]; [reflexivity|].
  cbn [tokens]. unfold edgeHyphens at 1. cbn [orb].
  destruct (forallb isHyphen (c :: r)) eqn:All.
  - rewrite (takeWhile_forallb _ _ All), Nat.eqb_refl.
    cbn [dropTrailingHyphens]. rewrite All.
    cbn [flat_map subst List.length Nat.pred app].
    now rewrite tokens_skip_all.
  - cbn [dropTrailingHyphens]. rewrite All.
    destruct (takeWhile isHyphen (c :: r)) as [|h run] eqn:T.
    + cbn [flat_map subst app]. now rewrite IH.
    + destruct (Nat.eqb (List.length (h :: run)) (List.length (c :: r))) eqn:L.
      * apply Nat.eqb_eq in L. rewrite <- T in L.
        apply takeWhile_length_all in L. congruence.
      * cbn [flat_map subst app]. now rewrite IH.
Qed.

Lemma edge_pass (s : jsstring) :
  replaceAnchored edgeHyphens (fun _ => []) s
  = dropTrailingHyphens (dropWhile isHyphen s).
Proof.
  unfold replaceAnchored. destruct s as [|c r]; [reflexivity|].
  unfold edgeHyphens at 1. cbn [orb takeWhile dropWhile].
  destruct (isHyphen c) eqn:E.
  - cbn [List.length Nat.pred flat_map subst app].
    rewrite tokens_skip, skipn_takeWhile. apply trailing_pass.
  - cbn [flat_map subst app]. rewrite trailing_pass.
    cbn [dropTrailingHyphens forallb]. now rewrite E.
Qed.

(** [slugify], pass by pass. *)
Lemma slugify_passes (lower : jsstring -> jsstring) (text : jsstring) :
  slugify lower text
  = dropTrailingHyphens
      (dropWhile isHyphen
         (collapse false (filter slugChar (trim (lower text))))).
Proof.
  unfold slugify. rewrite edge_pass, filter_pass. unfold replace.
  now rewrite (proj1 (collapse_pass _)).
Qed.

Lemma isSpace_not_alnum (c : char) : isAlnum c = true -> isSpace c = false.
Proof.
  unfold isAlnum. intros H. destruct (isSpace c) eqn:E; [|reflexivity].
  apply isSpace_spec in E.
  rewrite !orb_true_iff, !andb_true_iff, !N.leb_le in H. lia.
Qed.

Lemma isHyphen_not_alnum (c : char) : isAlnum c = true -> isHyphen c = false.
Proof.
  unfold isAlnum, isHyphen, HYPHEN. intros H.
  rewrite !orb_true_iff, !andb_true_iff, !N.leb_le in H.
  apply N.eqb_neq. lia.
Qed.

Lemma slugChar_cases (c : char) :
  slugChar c = true -> spaceOrHyphen c = false -> isAlnum c = true.
Proof.
  unfold slugChar, spaceOrHyphen, isAlnum. intros H N.
  apply orb_false_iff in N as [Hs Hh]. rewrite Hs, Hh in H.
  now rewrite !orb_false_r in H.
Qed.

Lemma innerShape_weaken (s : jsstring) :
  innerShape true s = true -> innerShape false s = true.
Proof. destruct s as [|c r]; [auto|]. simpl. destruct (isHyphen c); [discriminate|auto]. Qed.

Lemma collapse_shape (s : jsstring) :
  forallb slugChar s = true ->
  innerShape false (collapse false s) = true
  /\ innerShape true (collapse true s) = true.
Proof.
  induction s as [|c r IH]; [now split|].
  simpl. intros H. apply andb_true_iff in H as [Hc Hr].
  destruct (IH Hr) as [I0 I1].
  destruct (spaceOrHyphen c) eqn:E.
  - split; [|exact I1]. cbn [innerShape]. unfold isHyphen at 1.
    now rewrite N.eqb_refl.
  - pose proof (slugChar_cases _ Hc E) as A.
    cbn [innerShape]. now rewrite (isHyphen_not_alnum _ A), A, I0.
Qed.

Lemma dropWhile_shape (s : jsstring) :
  innerShape false s = true -> innerShape true (dropWhile isHyphen s) = true.
Proof.
  destruct s as [|c r]; [auto|]. cbn [innerShape dropWhile].
  destruct (isHyphen c) eqn:E.
  - cbn [negb andb]. intros H. destruct r as [|d r]; [reflexivity|].
    cbn [dropWhile]. destruct (isHyphen d) eqn:Ed; [|exact H].
    cbn [innerShape] in H. rewrite Ed in H. discriminate.
  - cbn [innerShape]. now rewrite E.
Qed.

Lemma dropTrailingHyphens_nil (s : jsstring) :
  dropTrailingHyphens s = [] -> forallb isHyphen s = true.
Proof.
  destruct s as [|c r]; [reflexivity|]. cbn [dropTrailingHyphens].
  destruct (forallb isHyphen (c :: r)); [reflexivity|discriminate].
Qed.

Lemma trailing_shape (s : jsstring) : forall prev,
  innerShape prev s = true -> slugShape prev (dropTrailingHyphens s) = true.
Proof.
  induction s as [|c r IH]; intros prev H; [reflexivity|].
  cbn [dropTrailingHyphens]. destruct (forallb isHyphen (c :: r)) eqn:All;
    [reflexivity|].
  cbn [innerShape] in H. cbn [slugShape]. destruct (isHyphen c) eqn:E.
  - apply andb_true_iff in H as [Hp Hr]. rewrite Hp, (IH _ Hr).
    destruct (dropTrailingHyphens r) eqn:D; [|reflexivity].
    apply dropTrailingHyphens_nil in D. simpl in All. rewrite E, D in All.
    discriminate.
  - apply andb_true_iff in H as [Ha Hr]. now rewrite Ha, (IH _ Hr).
Qed.

Lemma slugify_shape (lower : jsstring -> jsstring) (text : jsstring) :
  slugShape true (slugify lower text) = true.
Proof.
  rewrite slugify_passes. apply trailing_shape, dropWhile_shape.
  apply collapse_shape. apply forallb_forall. intros c Hc.
  now apply filter_In in Hc.
Qed.

(** *** A slug is a fixed point *)

Lemma shape_inner (s : jsstring) : forall prev,
  slugShape prev s = true -> innerShape prev s = true.
Proof.
  induction s as [|c r IH]; intros prev H; [reflexivity|].
  simpl in *. destruct (isHyphen c).
  - apply andb_true_iff in H as [H Hr]. apply andb_true_iff in H as [Hp _].
    now rewrite Hp, (IH _ Hr).
  - apply andb_true_iff in H as [Ha Hr]. now rewrite Ha, (IH _ Hr).
Qed.

Lemma inner_slugChar (s : jsstring) : forall prev,
  innerShape prev s = true ->
  forallb slugChar s = true /\ forallb nonSpace s = true.
Proof.
  induction s as [|c r IH]; intros prev H; [now split|].
  cbn [innerShape] in H. cbn [forallb].
  assert (C : slugChar c = true /\ nonSpace c = true
              /\ exists q, innerShape q r = true).
  { unfold slugChar, nonSpace. destruct (isHyphen c) eqn:E.
    - apply andb_true_iff in H as [_ Hr]. rewrite !orb_true_r.
      split; [reflexivity|]. split; [|now exists true].
      unfold isHyphen, HYPHEN in E. apply N.eqb_eq in E. now subst c.
    - apply andb_true_iff in H as [Ha Hr].
      rewrite (isSpace_not_alnum _ Ha). unfold isAlnum in Ha. rewrite Ha.
      split; [reflexivity|]. split; [reflexivity|now exists false]. }
  destruct C as (-> & -> & q & Hq). destruct (IH _ Hq) as [-> ->]. now split.
Qed.

Lemma filter_all {A} (p : A -> bool) (l : list A) :
  forallb p l = true -> filter p l = l.
Proof.
  induction l as [|a l IH]; [reflexivity|]. simpl. intros H.
  apply andb_true_iff in H as [-> H]. now rewrite IH.
Qed.

Lemma collapse_fixed (s : jsstring) : forall prev,
  innerShape prev s = true -> collapse prev s = s.
Proof.
  induction s as [|c r IH]; intros prev H; [reflexivity|].
  simpl in *. unfold spaceOrHyphen. destruct (isHyphen c) eqn:E.
  - apply andb_true_iff in H as [Hp Hr]. apply negb_true_iff in Hp. subst prev.
    rewrite orb_true_r, (IH _ Hr). unfold isHyphen in E. apply N.eqb_eq in E.
    now subst c.
  - apply andb_true_iff in H as [Ha Hr].
    now rewrite (isSpace_not_alnum _ Ha), (IH _ Hr).
Qed.

Lemma trailing_fixed (s : jsstring) : forall prev,
  slugShape prev s = true -> dropTrailingHyphens s = s.
Proof.
  induction s as [|c r IH]; intros prev H; [reflexivity|].
  cbn [dropTrailingHyphens]. cbn [slugShape] in H.
  destruct (isHyphen c) eqn:E.
  - apply andb_true_iff in H as [H Hr]. apply andb_true_iff in H as [_ Hne].
    destruct r as [|d r]; [discriminate|].
    assert (Hd : isHyphen d = false).
    { cbn [slugShape] in Hr. destruct (isHyphen d); [discriminate|reflexivity]. }
    cbn [forallb]. rewrite E, Hd. cbn [andb]. now rewrite (IH _ Hr).
  - apply andb_true_iff in H as [_ Hr]. cbn [forallb]. rewrite E. cbn [andb].
    now rewrite (IH _ Hr).
Qed.

Lemma slug_fixed (lower : jsstring -> jsstring) (s : jsstring) :
  slugShape true s = true -> lower s = s -> slugify lower s = s.
Proof.
  intros H L. rewrite slugify_passes, L.
  pose proof (shape_inner _ _ H) as I.
  destruct (inner_slugChar _ _ I) as [Hs Hn].
  rewrite (trim_nonSpace _ Hn), (filter_all _ _ Hs).
  rewrite (collapse_fixed _ _ (innerShape_weaken _ I)).
  assert (D : dropWhile isHyphen s = s).
  { destruct s as [|c r]; [reflexivity|]. simpl in *.
    destruct (isHyphen c); [discriminate|reflexivity]. }
  rewrite D. exact (trailing_fixed _ _ H).
Qed.

End SlugFacts.

(** ** Further properties of the renderer *)

Module RenderMoreFacts.
Import Renderer RendererSpec RendererFacts MoreSpec.

Lemma decode_escape (s : jsstring) :
  decodeEntities 0 (escapeHtml s) = s.
Proof.
  rewrite escapeHtml_pointwise. induction s as [|c s IH]; [reflexivity|].
  cbn [flat_map].
  revert IH. generalize (flat_map escapeChar s). intros rest IH.
  unfold escapeChar.
  destruct (N.eqb AMP c) eqn:Ea.
  { apply N.eqb_eq in Ea. subst c. cbn. now rewrite IH. }
  destruct (N.eqb LT c) eqn:El.
  { apply N.eqb_eq in El. subst c. cbn. now rewrite IH. }
  destruct (N.eqb GT c) eqn:Eg.
  { apply N.eqb_eq in Eg. subst c. cbn. now rewrite IH. }
  cbn [app decodeEntities]. now rewrite Ea, IH.
Qed.

(** *** Line feeds *)

Lemma countLF_app (a b : jsstring) : countLF (a ++ b) = countLF a + countLF b.
Proof. unfold countLF. now rewrite filter_app, length_app. Qed.

Lemma countLF_notLF (s : jsstring) : forallb notLF s = true -> countLF s = 0.
Proof.
  unfold countLF, notLF. induction s as [|c s IH]; [reflexivity|].
  cbn [forallb filter]. intros H. apply andb_true_iff in H as [Hc H].
  apply negb_true_iff in Hc. rewrite Hc. auto.
Qed.

Lemma splitLines_nonempty (s : jsstring) : splitLines s <> [].
Proof.
  induction s as [|c r IH]; [discriminate|]. cbn [splitLines].
  destruct (N.eqb c 10); [discriminate|].
  destruct (N.eqb c 13 && startsLF r); [exact IH|].
  destruct (splitLines r); discriminate.
Qed.

Lemma countLF_cons (c : char) (r : jsstring) :
  countLF (c :: r) = (if N.eqb c 10 then 1 else 0) + countLF r.
Proof.
  unfold countLF. cbn [filter]. rewrite (N.eqb_sym 10 c).
  now destruct (N.eqb c 10).
Qed.

Lemma splitLines_count (s : jsstring) :
  List.length (splitLines s) = S (countLF s).
Proof.
  induction s as [|c r IH]; [reflexivity|].
  rewrite countLF_cons. cbn [splitLines].
  destruct (N.eqb c 10) eqn:E; [cbn [List.length]; now rewrite IH|].
  destruct (N.eqb c 13 && startsLF r); [exact IH|].
  pose proof (splitLines_nonempty r).
  destruct (splitLines r); [contradiction|exact IH].
Qed.

Lemma splitLines_notLF (s : jsstring) :
  Forall (fun l => forallb notLF l = true) (splitLines s).
Proof.
  induction s as [|c r IH]; [repeat constructor|]. cbn [splitLines].
  destruct (N.eqb c 10) eqn:E; [now constructor|].
  destruct (N.eqb c 13 && startsLF r); [exact IH|].
  assert (Hc : notLF c = true).
  { unfold notLF. now rewrite (N.eqb_sym 10 c), E. }
  destruct (splitLines r) as [|l ls]; cbn [consFirst].
  - repeat constructor. cbn [forallb]. now rewrite Hc.
  - inversion IH; subst. constructor; [|assumption].
    cbn [forallb]. now rewrite Hc.
Qed.

Lemma join_count (ls : list jsstring) :
  ls <> [] ->
  Forall (fun l => countLF l = 0) ls ->
  countLF (join [10%N] ls) = Nat.pred (List.length ls).
Proof.
  induction ls as [|l ls IH]; [contradiction|]. intros _ F.
  inversion F as [|? ? Hl F']; subst.
  destruct ls as [|l' ls]; [exact Hl|].
  change (join [10%N] (l :: l' :: ls)) with (l ++ [10%N] ++ join [10%N] (l' :: ls)).
  rewrite !countLF_app, Hl, IH; [reflexivity|discriminate|exact F'].
Qed.

Lemma escapeHtml_notLF (s : jsstring) :
  forallb notLF s = true -> forallb notLF (escapeHtml s) = true.
Proof.
  rewrite escapeHtml_pointwise. induction s as [|c s IH]; [reflexivity|].
  simpl. intros H. apply andb_true_iff in H as [Hc H].
  rewrite forallb_app, (IH H), andb_true_r. unfold escapeChar.
  destruct (N.eqb AMP c); [reflexivity|].
  destruct (N.eqb LT c); [reflexivity|].
  destruct (N.eqb GT c); [reflexivity|]. simpl. now rewrite Hc.
Qed.

Lemma forallb_firstn {A} (p : A -> bool) (n : nat) (l : list A) :
  forallb p l = true -> forallb p (firstn n l) = true.
Proof.
  revert n. induction l as [|a l IH]; intros [|n]; simpl; auto.
  intros H. apply andb_true_iff in H as [-> H]. simpl. auto.
Qed.

Lemma trim_notLF (s : jsstring) :
  forallb notLF s = true -> forallb notLF (trim s) = true.
Proof.
  assert (D : forall t, forallb notLF t = true ->
                        forallb notLF (dropWhile isSpace t) = true).
  { induction t as [|c t IH]; [auto|]. simpl. intros H.
    destruct (isSpace c); [|exact H].
    apply andb_true_iff in H as [_ H]. auto. }
  assert (R : forall t, forallb notLF t = true -> forallb notLF (rev t) = true).
  { intros t H. apply forallb_forall. intros x Hx. apply in_rev in Hx.
    exact (proj1 (forallb_forall _ _) H x Hx). }
  intros H. unfold trim, trimEnd, trimStart. auto.
Qed.

Lemma linkOne_notLF (u : jsstring) :
  forallb notLF u = true -> forallb notLF (linkOne u) = true.
Proof.
  intros H. pose proof (escapeHtml_notLF _ H) as E.
  unfold linkOne, imageElement, anchorElement.
  destruct (isImg u); rewrite !forallb_app, E; reflexivity.
Qed.

Lemma linkify_notLF (e : jsstring) : forall k,
  forallb notLF e = true ->
  forallb notLF (flat_map (subst linkOne) (tokens urlRegex k e)) = true.
Proof.
  induction e as [|c r IH]; intros k H; [reflexivity|].
  pose proof H as H'. simpl in H'. apply andb_true_iff in H' as [Hc Hr].
  destruct k as [|k]; cbn [tokens]; [|now apply IH].
  destruct (urlRegex (c :: r)) as [n|].
  - cbn [flat_map subst]. rewrite forallb_app, IH by exact Hr.
    rewrite linkOne_notLF; [reflexivity|now apply forallb_firstn].
  - cbn [flat_map subst]. rewrite forallb_app, IH by exact Hr.
    simpl. now rewrite Hc.
Qed.

Lemma renderLine_notLF (line : jsstring) :
  forallb notLF line = true -> forallb notLF (renderLine line) = true.
Proof.
  intros H. unfold renderLine.
  pose proof (trim_notLF _ H) as T.
  destruct (trim line) as [|c t]; [reflexivity|].
  destruct (standaloneImage (c :: t)).
  - unfold imageElement. rewrite !forallb_app, (escapeHtml_notLF _ T).
    reflexivity.
  - rewrite !forallb_app. unfold linkify, replace.
    rewrite linkify_notLF by now apply escapeHtml_notLF. reflexivity.
Qed.

(** *** Blank lines *)

Lemma dropWhile_nil p (s : jsstring) :
  dropWhile p s = [] <-> forallb p s = true.
Proof.
  induction s as [|c s IH]; [tauto|]. simpl.
  destruct (p c); simpl; [exact IH|]. split; discriminate.
Qed.

Lemma forallb_suffix p (s : jsstring) :
  forallb p (dropWhile p s) = true -> forallb p s = true.
Proof.
  induction s as [|c s IH]; [auto|]. simpl. destruct (p c) eqn:E; simpl; auto.
  rewrite E. discriminate.
Qed.

Lemma forallb_rev {A} (p : A -> bool) (l : list A) :
  forallb p (rev l) = forallb p l.
Proof.
  induction l as [|a l IH]; [reflexivity|]. simpl.
  rewrite forallb_app, IH. simpl. rewrite andb_true_r. apply andb_comm.
Qed.

Lemma trim_nil (s : jsstring) : trim s = [] <-> forallb isSpace s = true.
Proof.
  unfold trim, trimEnd, trimStart. split.
  - intros H. apply (f_equal (@rev char)) in H. rewrite rev_involutive in H.
    simpl in H. apply dropWhile_nil in H. rewrite forallb_rev in H.
    now apply forallb_suffix.
  - intros H. apply dropWhile_nil in H. now rewrite H.
Qed.

(** *** Bare image elements *)

Lemma firstMatch_length m (s u : jsstring) :
  firstMatch m s = Some u -> List.length u <= List.length s.
Proof.
  induction s as [|c r IH]; [discriminate|]. cbn [firstMatch].
  destruct (m (c :: r)) as [n|].
  - intros [= <-]. rewrite length_firstn. lia.
  - intros H. apply IH in H. simpl. lia.
Qed.

Lemma scheme_cs_inv (s r : jsstring) :
  scheme cs_eq s = Some r -> exists p, httpScheme p /\ s = p ++ r.
Proof.
  unfold scheme. destruct (strip cs_eq (lit "http") s) as [r1|] eqn:E1;
    [|discriminate].
  apply strip_cs in E1. subst s.
  destruct (strip cs_eq (lit "s://") r1) as [r2|] eqn:E2.
  - intros [= <-]. apply strip_cs in E2. subst r1.
    exists (lit "https://"). split; [now right|reflexivity].
  - intros E3. apply strip_cs in E3. subst r1.
    exists (lit "http://"). split; [now left|reflexivity].
Qed.

Lemma takeWhile_length p (s : jsstring) :
  List.length (takeWhile p s) <= List.length s.
Proof.
  induction s as [|c s IH]; [auto|]. simpl. destruct (p c); simpl; lia.
Qed.

Lemma takeWhile_full p (s : jsstring) :
  List.length s <= List.length (takeWhile p s) -> forallb p s = true.
Proof.
  induction s as [|c s IH]; [auto|]. simpl. destruct (p c); simpl; [|lia].
  intros H. apply IH. lia.
Qed.

Lemma standaloneImage_inv (t : jsstring) :
  standaloneImage t = true ->
  exists p rest, httpScheme p /\ t = p ++ rest /\ rest <> []
                 /\ forallb nonSpace rest = true.
Proof.
  unfold standaloneImage. intros H. apply andb_true_iff in H as [_ H].
  destruct (firstMatch urlRegex t) as [u|] eqn:F; [|discriminate].
  assert (E : u = t).
  { clear -H. revert t H. induction u as [|x u IH]; intros [|y t]; simpl;
      try discriminate; [reflexivity|].
    intros H. apply andb_true_iff in H as [H1 H2]. apply N.eqb_eq in H1.
    subst. f_equal. auto. }
  subst u. destruct t as [|c r]; [discriminate|]. cbn [firstMatch] in F.
  destruct (urlRegex (c :: r)) as [n|] eqn:U.
  - injection F as F. unfold urlRegex in U.
    destruct (scheme cs_eq (c :: r)) as [rest|] eqn:S; [|discriminate].
    destruct (scheme_cs_inv _ S) as (p & Hp & Ht).
    exists p, rest. repeat split; auto.
    + intros ->. discriminate.
    + rewrite Ht in U, F.
      destruct (takeWhile nonSpace rest) as [|h run] eqn:T; [discriminate|].
      injection U as U. apply takeWhile_full. rewrite T.
      assert (L : List.length (p ++ rest) <= n).
      { rewrite <- F at 1. apply firstn_le_length. }
      rewrite length_app in U, L. cbn [List.length] in *. lia.
  - apply firstMatch_length in F. simpl in F. lia.
Qed.

End RenderMoreFacts.

(** ** Further properties of the dispatcher and of the SQLite site *)

Module DispatchMoreFacts.
Import Email EmailSpec EmailFacts Sqlite Routes RoutesSpec RoutesFacts.
Import RoutesMore MoreSpec.

Ltac all_runs w e mf user host pass key :=
  destruct (truthy mf) eqn:?; destruct (truthy user) eqn:?;
  destruct (truthy host) eqn:?; destruct (truthy pass) eqn:?;
  destruct key as [[|?c ?k]|]; cbn [truthy andb orb negb];
  try (destruct (http w e) as [|[|] [|]]);
  try (destruct (smtp w e)).

Lemma send_envelopes (w : World) (env : Env) (m : Mail) :
  Forall (fun e => mail e = m) (envelopesOf (fst (sendMail w env m []))).
Proof.
  destruct env as [mf host user pass key]. run_send. env_fields.
  set (e := {| from := _; mail := m |}).
  all_runs w e mf user host pass key; repeat constructor.
Qed.

Lemma send_key (w : World) (env : Env) (m : Mail) (key : jsstring) (e : Envelope) :
  In (HttpPost key e) (fst (sendMail w env m [])) ->
  RESEND_API_KEY env = Some key.
Proof.
  destruct env as [mf host user pass k0]. run_send. env_fields.
  set (e0 := {| from := _; mail := m |}).
  all_runs w e0 mf user host pass k0; cbn [app In]; intros Hin;
    repeat (destruct Hin as [Hin|Hin];
            [try discriminate; injection Hin as <- _; reflexivity|]);
    destruct Hin.
Qed.

Lemma send_log_lines (w : World) (env : Env) (m : Mail) :
  let tr := fst (sendMail w env m []) in
  List.length (filter isSuccessLine tr) = (if delivered w env m then 1 else 0)
  /\ List.length (filter isErrorLine tr) + (if delivered w env m then 1 else 0)
     = List.length (attemptsOf tr).
Proof.
  unfold delivered, smtpConfigured, envelope.
  destruct env as [mf host user pass key]. run_send. env_fields.
  set (e := {| from := _; mail := m |}).
  all_runs w e mf user host pass key; split; reflexivity.
Qed.

Lemma envelopesOf_app (a b : list Event) :
  envelopesOf (a ++ b) = envelopesOf a ++ envelopesOf b.
Proof. unfold envelopesOf. apply flat_map_app. Qed.

Lemma allSettled_trace (w : World) (env : Env) (ms : list Mail) :
  forall tr,
    allSettled (List.map (sendMail w env) ms) tr
    = (tr ++ flat_map (fun m => fst (sendMail w env m [])) ms,
       Resolved (List.map (fun m => Resolved (delivered w env m)) ms)).
Proof.
  induction ms as [|m ms IH]; intros tr.
  - cbn. now rewrite app_nil_r.
  - cbn [List.map allSettled flat_map]. rewrite sendMail_run, IH.
    now rewrite app_assoc.
Qed.

Lemma batch_envelopes (w : World) (env : Env) (ms : list Mail) :
  Forall (fun e => In (mail e) ms)
    (envelopesOf (flat_map (fun m => fst (sendMail w env m [])) ms)).
Proof.
  induction ms as [|m ms IH]; [constructor|].
  cbn [flat_map]. rewrite envelopesOf_app. apply Forall_app. split.
  - eapply Forall_impl; [|apply send_envelopes]. intros e ->. now left.
  - eapply Forall_impl; [|exact IH]. intros e H. now right.
Qed.





(** *** The posts table *)

Lemma NoDup_map_filter {A B} (f : A -> B) (p : A -> bool) (l : list A) :
  NoDup (List.map f l) -> NoDup (List.map f (filter p l)).
Proof.
  induction l as [|a l IH]; [auto|]. simpl. intros N.
  inversion N as [|? ? Hn N']; subst. destruct (p a); [|auto].
  simpl. constructor; [|auto]. intros Hin. apply Hn.
  apply in_map_iff in Hin as (x & E & Hx). apply filter_In in Hx as [Hx _].
  rewrite <- E. now apply in_map.
Qed.

Lemma hasSlug_false (slug : jsstring) (db : Db) :
  hasSlug slug db = false -> ~ In slug (List.map post_slug (posts db)).
Proof.
  unfold hasSlug. intros H Hin. apply in_map_iff in Hin as (p & E & Hp).
  assert (X : existsb (fun p => eqs (post_slug p) slug) (posts db) = true).
  { apply existsb_exists. exists p. split; [exact Hp|]. now apply eqs_eq. }
  congruence.
Qed.

Lemma insertPost_inv (title slug content : jsstring) (db db' : Db) :
  postsInv db -> insertPost title slug content db = Some db' -> postsInv db'.
Proof.
  intros (Hs & Hi & Hb). unfold insertPost.
  destruct (hasSlug slug db) eqn:E; [discriminate|]. intros [= <-].
  unfold postsInv. cbn [posts posts_seq]. rewrite !map_app. cbn [List.map].
  repeat split.
  - apply NoDup_app; [exact Hs|repeat constructor; auto|].
    intros a Ha [<-|[]]. now apply (hasSlug_false _ _ E).
  - apply NoDup_app; [exact Hi|repeat constructor; auto|].
    intros a Ha [<-|[]]. apply in_map_iff in Ha as (p & Ep & Hp).
    pose proof (proj1 (Forall_forall _ _) Hb p Hp) as B.
    cbn beta in B. cbn [post_id] in Ep. lia.
  - apply Forall_app. split.
    + eapply Forall_impl; [|exact Hb]. cbn beta. intros p B. lia.
    + repeat constructor. cbn [post_id]. lia.
Qed.

Lemma deletePostRow_inv (id : N) (db : Db) :
  postsInv db -> postsInv (deletePostRow id db).
Proof.
  intros (Hs & Hi & Hb). unfold postsInv, deletePostRow. cbn [posts posts_seq].
  repeat split; try now apply NoDup_map_filter.
  apply Forall_forall. intros p Hp. apply filter_In in Hp as [Hp _].
  exact (proj1 (Forall_forall _ _) Hb p Hp).
Qed.

Lemma retitle_id (id : N) (title slug content : jsstring) (ps : list Post) :
  List.map post_id (List.map (retitle id title slug content) ps)
  = List.map post_id ps.
Proof.
  rewrite map_map. apply map_ext. intros p. unfold retitle.
  now destruct (N.eqb (post_id p) id).
Qed.

Lemma retitle_absent (id : N) (title slug content : jsstring) (ps : list Post) :
  ~ In id (List.map post_id ps) ->
  List.map (retitle id title slug content) ps = ps.
Proof.
  induction ps as [|p ps IH]; [auto|]. simpl. intros H. unfold retitle at 1.
  destruct (N.eqb_spec (post_id p) id) as [E|E]; [exfalso; auto|].
  f_equal. auto.
Qed.

Lemma retitle_slugs (id : N) (title slug content : jsstring) (ps : list Post) :
  NoDup (List.map post_id ps) ->
  NoDup (List.map post_slug ps) ->
  (forall p, In p ps -> post_id p <> id -> post_slug p <> slug) ->
  NoDup (List.map post_slug (List.map (retitle id title slug content) ps)).
Proof.
  induction ps as [|p ps IH]; [constructor|]. simpl. intros Ni Ns Hother.
  inversion Ni as [|? ? Hni Ni']; inversion Ns as [|? ? Hns Ns']; subst.
  unfold retitle at 1. destruct (N.eqb_spec (post_id p) id) as [E|E].
  - subst id. rewrite retitle_absent by exact Hni. cbn [post_slug].
    constructor; [|exact Ns']. intros Hin.
    apply in_map_iff in Hin as (q & Eq & Hq).
    apply (Hother q); [now right| |exact Eq].
    intros Eid. apply Hni. rewrite <- Eid. now apply in_map.
  - constructor; [|apply IH; auto].
    intros Hin. apply in_map_iff in Hin as (q & Eq & Hq).
    apply in_map_iff in Hq as (q0 & <- & Hq0). unfold retitle in Eq.
    destruct (N.eqb (post_id q0) id).
    + cbn in Eq. apply (Hother p); [now left|exact E|now symmetry].
    + apply Hns. rewrite <- Eq. now apply in_map.
Qed.

Lemma updatePostRow_inv (id : N) (title slug content : jsstring) (db db' : Db) :
  postsInv db -> updatePostRow id title slug content db = Some db' ->
  postsInv db'.
Proof.
  intros (Hs & Hi & Hb). unfold updatePostRow.
  destruct (hasPostId id db && _) eqn:E; [discriminate|]. intros [= <-].
  unfold postsInv. cbn [posts posts_seq].
  change (fun p : Post => if N.eqb (post_id p) id then _ else p)
    with (retitle id title slug content).
  repeat split.
  - apply andb_false_iff in E as [E|E].
    + rewrite retitle_absent; [exact Hs|]. intros Hin.
      apply in_map_iff in Hin as (p & Ep & Hp).
      assert (X : hasPostId id db = true).
      { apply existsb_exists. exists p. split; [exact Hp|]. now apply N.eqb_eq. }
      congruence.
    + apply retitle_slugs; auto. intros p Hp Hid Hslug.
      assert (X : existsb (fun p => negb (N.eqb (post_id p) id)
                                    && eqs (post_slug p) slug) (posts db) = true).
      { apply existsb_exists. exists p. split; [exact Hp|].
        apply andb_true_iff. split; [|now apply eqs_eq].
        apply negb_true_iff. now apply N.eqb_neq. }
      congruence.
  - now rewrite retitle_id.
  - apply Forall_forall. intros p Hp. apply in_map_iff in Hp as (q & <- & Hq).
    pose proof (proj1 (Forall_forall _ _) Hb q Hq) as B. unfold retitle.
    now destruct (N.eqb (post_id q) id).
Qed.

End DispatchMoreFacts.

(** ** Properties of the users table and of the file/LokiJS site *)

Module UsersServerFacts.
Import RoutesFacts MoreSpec.

Lemma find_none {A} (f : A -> bool) (l : list A) :
  existsb f l = false -> find f l = None.
Proof.
  induction l as [|a l IH]; [reflexivity|]. simpl.
  destruct (f a); [discriminate|exact IH].
Qed.

Lemma eqs_neq (a b : jsstring) : a <> b -> eqs a b = false.
Proof.
  intros H. destruct (eqs a b) eqn:E; [|reflexivity].
  apply eqs_eq in E. contradiction.
Qed.

(** *** Users *)

Section UsersFacts.
Import Users.

Lemma updateHash_emails (email hash : jsstring) (t : Table) :
  List.map user_email (users (updateHash email hash t))
  = List.map user_email (users t).
Proof.
  unfold updateHash. cbn [users]. rewrite map_map. apply map_ext.
  intros u. now destruct (eqs (user_email u) email).
Qed.

Lemma hasUser_emails (email : jsstring) (t : Table) :
  hasUser email t = existsb (fun e => eqs e email) (List.map user_email (users t)).
Proof.
  unfold hasUser. induction (users t) as [|u l IH]; [reflexivity|].
  simpl. now rewrite IH.
Qed.

Lemma hasUser_false (email : jsstring) (t : Table) (u : User) :
  hasUser email t = false -> In u (users t) -> user_email u <> email.
Proof.
  unfold hasUser. intros H Hin E.
  assert (X : existsb (fun u => eqs (user_email u) email) (users t) = true).
  { apply existsb_exists. exists u. split; [exact Hin|]. now apply eqs_eq. }
  congruence.
Qed.

End UsersFacts.

(** *** Post files and documents *)

Section ServerFacts.
Import Server ServerMore.

Lemma read_write_same (slug : jsstring) (v : jsstring) (fs : list (jsstring * jsstring)) :
  readFile slug (writeFile slug v fs) = Some v.
Proof.
  induction fs as [|[k v'] fs IH]; cbn [writeFile readFile].
  - now rewrite eqs_same.
  - destruct (eqs k slug) eqn:E; cbn [readFile]; rewrite E; auto.
Qed.

Lemma read_write_other (slug k' : jsstring) (v : jsstring)
  (fs : list (jsstring * jsstring)) :
  k' <> slug -> readFile k' (writeFile slug v fs) = readFile k' fs.
Proof.
  intros Hne. induction fs as [|[k v'] fs IH]; cbn [writeFile readFile].
  - rewrite eqs_neq; [reflexivity|]. intros E. now apply Hne.
  - destruct (eqs k slug) eqn:E; cbn [readFile].
    + apply eqs_eq in E. subst k.
      rewrite eqs_neq; [reflexivity|]. intros E. now apply Hne.
    + now rewrite IH.
Qed.

Lemma unlink_write_fresh (slug : jsstring) (v : jsstring)
  (fs : list (jsstring * jsstring)) :
  readFile slug fs = None -> unlinkFile slug (writeFile slug v fs) = fs.
Proof.
  unfold unlinkFile. induction fs as [|[k v'] fs IH]; cbn [writeFile readFile].
  - intros _. cbn. now rewrite eqs_same.
  - destruct (eqs k slug) eqn:E; [discriminate|]. intros H.
    cbn [filter fst]. rewrite E. cbn [negb]. now rewrite IH.
Qed.

Lemma removeFirst_fresh (slug : jsstring) (d : PostDoc) (docs : list PostDoc) :
  (forall x, In x docs -> doc_slug x <> slug) -> doc_slug d = slug ->
  removeFirst slug (docs ++ [d]) = docs.
Proof.
  intros H Hd. induction docs as [|x docs IH]; cbn [app removeFirst].
  - now rewrite Hd, eqs_same.
  - rewrite eqs_neq by (apply H; now left). f_equal. apply IH.
    intros y Hy. apply H. now right.
Qed.

Lemma findAndRemove_fresh (slug : jsstring) (cs : list CommentDoc) :
  (forall c, In c cs -> cdoc_slug c <> slug) -> findAndRemove slug cs = cs.
Proof.
  unfold findAndRemove. intros H. induction cs as [|c cs IH]; [reflexivity|].
  cbn [filter]. rewrite eqs_neq by (apply H; now left). cbn [negb]. f_equal.
  apply IH. intros y Hy. apply H. now right.
Qed.

Lemma upsert_find_same (d : PostDoc) (docs : list PostDoc) :
  findDoc (doc_slug d) (upsertDoc d docs) = Some d.
Proof.
  unfold findDoc. induction docs as [|x docs IH]; cbn [upsertDoc find].
  - now rewrite eqs_same.
  - destruct (eqs (doc_slug x) (doc_slug d)) eqn:E; cbn [find].
    + now rewrite eqs_same.
    + now rewrite E.
Qed.

Lemma upsert_find_other (k : jsstring) (d : PostDoc) (docs : list PostDoc) :
  k <> doc_slug d -> findDoc k (upsertDoc d docs) = findDoc k docs.
Proof.
  unfold findDoc. intros Hne. induction docs as [|x docs IH]; cbn [upsertDoc find].
  - rewrite eqs_neq; [reflexivity|]. intros E. now apply Hne.
  - destruct (eqs (doc_slug x) (doc_slug d)) eqn:E; cbn [find].
    + apply eqs_eq in E. rewrite E.
      rewrite eqs_neq; [reflexivity|]. intros E'. now apply Hne.
    + now rewrite IH.
Qed.

Lemma upsert_fixed (d : PostDoc) (docs : list PostDoc) :
  findDoc (doc_slug d) docs = Some d -> upsertDoc d docs = docs.
Proof.
  unfold findDoc. induction docs as [|x docs IH]; cbn [upsertDoc find];
    [discriminate|].
  destruct (eqs (doc_slug x) (doc_slug d)) eqn:E.
  - now intros [= ->].
  - intros H. now rewrite IH.
Qed.

Lemma unlink_fresh (slug : jsstring) (fs : list (jsstring * jsstring)) :
  readFile slug fs = None -> unlinkFile slug fs = fs.
Proof.
  unfold unlinkFile. induction fs as [|[k v] fs IH]; [reflexivity|].
  cbn [readFile filter fst]. destruct (eqs k slug); [discriminate|].
  intros H. cbn [negb]. now rewrite IH.
Qed.

Lemma removeFirst_absent (slug : jsstring) (docs : list PostDoc) :
  (forall x, In x docs -> doc_slug x <> slug) -> removeFirst slug docs = docs.
Proof.
  intros H. induction docs as [|x docs IH]; [reflexivity|].
  cbn [removeFirst]. rewrite eqs_neq by (apply H; now left). f_equal.
  apply IH. intros y Hy. apply H. now right.
Qed.

(** The backfill is a fold over the files it can read. *)
Lemma backfill_readable (matter : jsstring -> option FrontMatter)
  (ctime : jsstring -> jsstring) (fs : list (jsstring * jsstring)) :
  forall docs,
    backfill matter ctime fs docs
    = fold_left (backfillStep ctime) (readable matter fs) docs.
Proof.
  induction fs as [|[slug raw] fs IH]; intros docs; [reflexivity|].
  cbn [backfill readable]. destruct (matter raw) as [data|]; [|reflexivity].
  cbn [fold_left]. now rewrite IH.
Qed.

Lemma readable_slugs (matter : jsstring -> option FrontMatter)
  (fs : list (jsstring * jsstring)) :
  exists rest, List.map fst fs = List.map fst (readable matter fs) ++ rest.
Proof.
  induction fs as [|[slug raw] fs IH]; [now exists []|].
  cbn [readable]. destruct (matter raw) as [data|].
  - destruct IH as (rest & E). exists rest. cbn [List.map fst app]. now rewrite E.
  - now exists (List.map fst ((slug, raw) :: fs)).
Qed.

Lemma readable_NoDup (matter : jsstring -> option FrontMatter)
  (fs : list (jsstring * jsstring)) :
  NoDup (List.map fst fs) -> NoDup (List.map fst (readable matter fs)).
Proof.
  intros N. destruct (readable_slugs matter fs) as (rest & E).
  rewrite E in N. now apply NoDup_app_remove_r in N.
Qed.

Lemma readable_app_in (matter : jsstring -> option FrontMatter)
  (good rest : list (jsstring * jsstring)) (slug raw : jsstring)
  (data : FrontMatter) :
  (forall kv, In kv good -> matter (snd kv) <> None) ->
  In (slug, raw) good -> matter raw = Some data ->
  In (slug, data) (readable matter (good ++ rest)).
Proof.
  induction good as [|[k v] good IH]; intros A Hin M; [destruct Hin|].
  cbn [app readable]. destruct (matter v) as [d|] eqn:Mv.
  - destruct Hin as [[= -> ->]|Hin].
    + left. congruence.
    + right. apply IH; auto. intros kv Hkv. apply A. now right.
  - exfalso. now apply (A (k, v)); [left|].
Qed.

Lemma readable_app_stop (matter : jsstring -> option FrontMatter)
  (good rest : list (jsstring * jsstring)) (slug raw : jsstring) :
  (forall kv, In kv good -> matter (snd kv) <> None) ->
  matter raw = None ->
  readable matter (good ++ (slug, raw) :: rest) = readable matter good.
Proof.
  induction good as [|[k v] good IH]; intros A M.
  - cbn [app readable]. now rewrite M.
  - cbn [app readable]. destruct (matter v) as [d|] eqn:Mv.
    + f_equal. apply IH; auto. intros kv Hkv. apply A. now right.
    + reflexivity.
Qed.

Lemma backfill_finds (ctime : jsstring -> jsstring)
  (fs : list (jsstring * FrontMatter)) : forall docs,
  NoDup (List.map fst fs) ->
  (forall kv, In kv fs ->
     findDoc (fst kv) (fold_left (backfillStep ctime) fs docs)
     = Some (docOf ctime (fst kv) (snd kv)))
  /\ (forall k, ~ In k (List.map fst fs) ->
        findDoc k (fold_left (backfillStep ctime) fs docs) = findDoc k docs).
Proof.
  induction fs as [|kv fs IH]; intros docs N.
  - split; [intros kv []|reflexivity].
  - cbn [List.map] in N. inversion N as [|? ? Hn N']; subst.
    cbn [fold_left]. destruct (IH (backfillStep ctime docs kv) N') as [F O].
    split.
    + intros kv' [<-|Hin]; [|now apply F].
      rewrite (O _ Hn). unfold backfillStep.
      exact (upsert_find_same (docOf ctime (fst kv) (snd kv)) docs).
    + intros k Hk. rewrite O by (intros X; apply Hk; now right).
      unfold backfillStep. apply upsert_find_other.
      intros E. apply Hk. left. now rewrite E.
Qed.

Lemma backfill_fixed (ctime : jsstring -> jsstring)
  (fs : list (jsstring * FrontMatter)) (docs : list PostDoc) :
  (forall kv, In kv fs ->
     findDoc (fst kv) docs = Some (docOf ctime (fst kv) (snd kv))) ->
  fold_left (backfillStep ctime) fs docs = docs.
Proof.
  induction fs as [|kv fs IH]; intros H; [reflexivity|].
  cbn [fold_left]. unfold backfillStep at 2.
  rewrite upsert_fixed by (apply (H kv); now left).
  apply IH. intros kv' Hin. apply H. now right.
Qed.

End ServerFacts.

End UsersServerFacts.

(** ** Properties of upload names *)

Module UploadFacts.
Import Renderer RendererSpec RendererFacts MoreSpec Uploads.

Lemma sanitise_pass (s : jsstring) :
  replace (oneOf (fun c => negb (safeChar c))) (fun _ => lit "_") s
  = List.map sanitise s.
Proof.
  rewrite replace_oneOf. induction s as [|c s IH]; [reflexivity|].
  cbn [flat_map List.map]. rewrite IH. unfold sanitise.
  now destruct (safeChar c).
Qed.

Lemma sanitise_safe (s : jsstring) : forallb safeChar (List.map sanitise s) = true.
Proof.
  induction s as [|c s IH]; [reflexivity|].
  cbn [List.map forallb]. rewrite IH. unfold sanitise.
  destruct (safeChar c) eqn:E; [now rewrite E|reflexivity].
Qed.

Lemma safeBase_safe (o : option jsstring) : forallb safeChar (safeBase o) = true.
Proof. unfold safeBase. rewrite sanitise_pass. apply sanitise_safe. Qed.

Lemma uint_digits (d : Decimal.uint) :
  forallb safeChar (lit (NilEmpty.string_of_uint d)) = true.
Proof.
  induction d; cbn [NilEmpty.string_of_uint lit list_ascii_of_string List.map forallb];
    try reflexivity; unfold lit in IHd; now rewrite IHd.
Qed.

Lemma digits_safe (n : N) : forallb safeChar (Server.digits n) = true.
Proof.
  unfold Server.digits, NilZero.string_of_uint.
  destruct (N.to_uint n) eqn:E; try reflexivity; rewrite <- E; apply uint_digits.
Qed.

Lemma safeChar_nonSpace (c : char) : safeChar c = true -> nonSpace c = true.
Proof.
  unfold safeChar, nonSpace. intros H. destruct (isSpace c) eqn:E; [|reflexivity].
  apply isSpace_spec in E.
  rewrite !orb_true_iff, !andb_true_iff, !N.leb_le, !N.eqb_eq in H. lia.
Qed.

Lemma safe_nonSpace (s : jsstring) :
  forallb safeChar s = true -> forallb nonSpace s = true.
Proof.
  induction s as [|c s IH]; [auto|]. cbn [forallb]. intros H.
  apply andb_true_iff in H as [Hc H]. now rewrite (safeChar_nonSpace _ Hc), IH.
Qed.

Lemma filename_safe (now rnd : N) (o : option jsstring) :
  forallb safeChar (filename now rnd o) = true.
Proof.
  unfold filename. rewrite !forallb_app, !digits_safe, safeBase_safe. reflexivity.
Qed.

Lemma lower_letter_safe (c : char) :
  (97 <= asciiLowerChar c <= 122)%N -> safeChar c = true.
Proof.
  unfold asciiLowerChar, safeChar. intros R.
  destruct (N.leb_spec 65 c) as [U1|U1]; destruct (N.leb_spec c 90) as [U2|U2];
    cbn [andb] in *;
    try (destruct R as [R1 R2]; apply N.leb_le in R1, R2; now rewrite R1, R2).
  now rewrite orb_true_r.
Qed.

Lemma extension_safe (ext : jsstring) :
  In (asciiLower ext) extensions -> forallb safeChar ext = true.
Proof.
  intros H.
  assert (L : Forall (fun c => (97 <= c <= 122)%N) (asciiLower ext)).
  { unfold extensions in H. simpl in H.
    repeat (destruct H as [<-|H]; [repeat constructor; cbv; discriminate|]).
    destruct H. }
  clear H. induction ext as [|c ext IH]; [reflexivity|].
  cbn [asciiLower List.map] in L. inversion L; subst.
  cbn [forallb]. rewrite (lower_letter_safe c) by assumption.
  now rewrite IH.
Qed.

Lemma map_fixed {A} (f : A -> A) (p : A -> bool) (l : list A) :
  (forall a, p a = true -> f a = a) -> forallb p l = true -> List.map f l = l.
Proof.
  intros Hf. induction l as [|a l IH]; [reflexivity|]. cbn [forallb List.map].
  intros H. apply andb_true_iff in H as [Ha H]. now rewrite (Hf a Ha), IH.
Qed.

(** The sanitised name keeps an allow-listed extension as it is. *)
Lemma safeBase_extension (stem ext : jsstring) :
  In (asciiLower ext) extensions ->
  exists stem', safeBase (Some (stem ++ DOT :: ext)) = stem' ++ DOT :: ext
                /\ forallb safeChar stem' = true.
Proof.
  intros He. pose proof (extension_safe _ He) as Hs.
  exists (List.map sanitise stem). split; [|apply sanitise_safe].
  unfold safeBase. rewrite sanitise_pass.
  assert (E : match stem ++ DOT :: ext with
              | [] => lit "image" | c :: s => c :: s end = stem ++ DOT :: ext).
  { destruct stem; reflexivity. }
  rewrite E, map_app. cbn [List.map]. f_equal. f_equal.
  apply (map_fixed _ safeChar); [|exact Hs]. unfold sanitise. now intros a ->.
Qed.

End UploadFacts.

(** ** The renderer: claims *)

Module RendererClaims.
Import Renderer RendererSpec RendererFacts.

(** C3, as amended.  A line whose trimmed content is [http://] or [https://],
    then one or more non-space code units, then a dot and an allow-listed
    extension in any letter case, is rendered as the image element alone
    (a [div] around a lazily loaded [img], no paragraph); its [src] is the
    URL with [&], [<] and [>] written as entities, and the URL itself when it
    has none of them. *)
Theorem image_url_line_renders_image_only :
  forall line p body ext : jsstring,
    trim line = p ++ body ++ DOT :: ext ->
    httpScheme p ->
    body <> [] ->
    forallb nonSpace body = true ->
    In (asciiLower ext) extensions ->
    renderLine line = imageElement (escapeHtml (trim line))
    /\ (forallb (fun c => negb (special c)) (trim line) = true ->
        renderLine line = imageElement (trim line)).
Proof.
  intros line p body ext Ht Hp Hne Hns Hext.
  assert (R : renderLine line = imageElement (escapeHtml (trim line))).
  { unfold renderLine. rewrite Ht.
    rewrite standaloneImage_url by assumption.
    destruct (p ++ body ++ DOT :: ext) eqn:E; [|reflexivity].
    destruct Hp as [->| ->]; discriminate. }
  split; [exact R|].
  intros Hplain. now rewrite R, (escapeHtml_plain _ Hplain).
Qed.

Lemma image_url_line_renders_image_only_witness :
  renderLine (lit "  https://a.b/Pic.JPG ")
  = imageElement (lit "https://a.b/Pic.JPG").
Proof.
  refine (proj2 (@image_url_line_renders_image_only
                   (lit "  https://a.b/Pic.JPG ")
                   (lit "https://") (lit "a.b/Pic") (lit "JPG")
                   _ _ _ _ _) _).
  - reflexivity.
  - right. reflexivity.
  - discriminate.
  - reflexivity.
  - simpl. auto.
  - reflexivity.
Defined.

(** C3, as stated, fails where nothing stands between [://] and the
    extension's dot: the line is a URL by the renderer's own pattern and an
    image by its inline test, and is rendered inside a paragraph. *)
Lemma bare_extension_url_is_wrapped_in_paragraph :
  renderLine (lit "http://.png")
  = lit "<p>" ++ imageElement (lit "http://.png") ++ lit "</p>"
  /\ renderLine (lit "http://.png") <> imageElement (lit "http://.png").
Proof. split; [reflexivity|discriminate]. Qed.

(** C4, at the failing input.  A URL with an [&] is escaped with the line and
    again inside the substitution: the [href] reads [&amp;amp;]. *)
Theorem ampersand_url_is_escaped_twice :
  renderContentToHtml (lit "http://a.com/?a=1&b=2")
  = tpl "<p><a href='http://a.com/?a=1&amp;amp;b=2' target='_blank' rel='noopener noreferrer'>http://a.com/?a=1&amp;amp;b=2</a></p>".
Proof. reflexivity. Qed.

(** Where the URL has no [&], [<] or [>] the two escapes change nothing: the
    line is one anchor to the URL itself, opened in a new context without
    referrer. *)
Lemma plain_url_line_links_to_url (p rest : jsstring) :
  httpScheme p -> rest <> [] -> forallb nonSpace rest = true ->
  forallb (fun c => negb (special c)) (p ++ rest) = true ->
  standaloneImage (p ++ rest) = false ->
  isImg (p ++ rest) = false ->
  renderLine (p ++ rest)
  = lit "<p>" ++ anchorElement (p ++ rest) ++ lit "</p>".
Proof.
  intros Hp Hne Hns Hplain Hstand Himg.
  rewrite url_line_anchor; rewrite ?(escapeHtml_plain _ Hplain); auto.
Qed.

(** C5.  Whatever the line, the output is a sequence of the renderer's own
    markup fragments and of escaped text (text without [<] or [>] whose every
    [&] starts [&amp;], [&lt;] or [&gt;]); and a paragraph is the escaped line,
    code unit by code unit, with its URL matches substituted. *)
Theorem text_is_escaped_before_linking :
  forall line : jsstring,
    (exists ps, renderLine line = flat_map pieceText ps /\ Forall okPiece ps)
    /\ (renderLine line = lit "<br/>"
        \/ renderLine line = imageElement (escapeHtml (trim line))
        \/ exists toks,
             renderLine line
             = lit "<p>" ++ flat_map (subst linkOne) toks ++ lit "</p>"
             /\ flat_map raw toks = flat_map escapeChar line).
Proof.
  intros line. unfold renderLine.
  destruct (trim line) as [|c t] eqn:Et.
  { split; [|now left]. exists [Markup (lit "<br/>")]. split; [reflexivity|].
    repeat (apply Forall_cons); try apply Forall_nil.
    cbv [okPiece ownMarkup In]. auto 10. }
  destruct (standaloneImage (c :: t)).
  { split; [|right; now left].
    exists [Markup (tpl "<div class='post-image'><img src='");
            Text (escapeHtml (c :: t));
            Markup (tpl "' alt='image' loading='lazy'/></div>")].
    split.
    - unfold imageElement. cbn [flat_map pieceText]. now rewrite app_nil_r.
    - pose proof (escapedForm_escapeHtml (c :: t)).
      repeat (apply Forall_cons); try apply Forall_nil;
        cbv [okPiece ownMarkup In]; auto 10. }
  split.
  - destruct (@linkify_pieces (List.length (escapeHtml line)) (escapeHtml line) 0
                (le_n _) (escapedForm_escapeHtml line)) as (ps & E & F).
    exists (Markup (lit "<p>") :: ps ++ [Markup (lit "</p>")]). split.
    + cbn [flat_map pieceText]. rewrite flat_map_app. cbn [flat_map pieceText].
      rewrite app_nil_r. unfold linkify, replace. now rewrite E.
    + constructor; [cbv [okPiece ownMarkup In]; auto 10|].
      apply Forall_app. split; [exact F|].
      constructor; [cbv [okPiece ownMarkup In]; auto 10|constructor].
  - right; right. exists (tokens urlRegex 0 (escapeHtml line)). split.
    + reflexivity.
    + rewrite tokens_raw by exact urlRegex_pos. simpl.
      apply escapeHtml_pointwise.
Qed.

End RendererClaims.

(** ** The dispatcher: claims *)

Module DispatchClaims.
Import Email EmailSpec EmailFacts Sqlite Routes RoutesSpec RoutesFacts.
Import MoreSpec DispatchMoreFacts.

(** C10.  Whatever the message, the configuration and the answers of the
    outside, [sendMail] resolves, with [true] when the provider or else the
    relay took the message and [false] otherwise; it never rejects. *)
Theorem sendMail_always_resolves_to_boolean :
  forall (w : World) (env : Env) (m : Mail) (tr : list Event),
    snd (sendMail w env m tr) = Resolved (delivered w env m)
    /\ snd (sendMail w env m tr) <> Rejected.
Proof.
  intros w env m tr. rewrite sendMail_run. cbn [snd]. split; [reflexivity|discriminate].
Qed.

(** C9.  The sender is the configured from address if set, else the SMTP
    user name if set, else the fallback address; every envelope handed to a
    provider carries it; and the missing-sender warning is written once when
    neither is set and not at all otherwise. *)
Theorem sender_resolution_and_warning :
  forall (w : World) (env : Env) (m : Mail),
    sender env = Some (specSender env)
    /\ Forall (fun e => from e = Some (specSender env))
         (envelopesOf (fst (sendMail w env m [])))
    /\ List.length (filter isNoSenderWarning (fst (sendMail w env m [])))
       = (if truthy (MAIL_FROM env) || truthy (SMTP_USER env) then 0 else 1).
Proof.
  intros w env m.
  assert (S : sender env = Some (specSender env)).
  { unfold sender, specSender, jsOr.
    destruct (MAIL_FROM env) as [[|c s]|]; destruct (SMTP_USER env) as [[|d u]|];
      reflexivity. }
  split; [exact S|]. revert S. generalize (specSender env). intros addr S.
  destruct env as [mf host user pass key]. run_send. env_fields.
  rewrite S. set (e := {| from := Some addr; mail := m |}).
  destruct (truthy mf) eqn:Emf; destruct (truthy user) eqn:Eu;
  destruct (truthy host) eqn:Eh; destruct (truthy pass) eqn:Ep;
  destruct key as [[|c k]|]; cbn [truthy andb orb negb];
  try (destruct (http w e) as [|[|] [|]]);
  try (destruct (smtp w e));
  (split; [repeat constructor|reflexivity]).
Qed.


(** A run where both fail: a key and a relay are configured, the provider
    is unreachable and the relay refuses.  The provider is tried, then the
    relay, each failure is logged, the send resolves with [false], and the
    visitor who subscribed is stored and answered all the same. *)
Example both_providers_fail_and_subscribe_completes :
  let env := {| MAIL_FROM := Some (lit "blog@example.org");
                SMTP_HOST := Some (lit "smtp.example.org");
                SMTP_USER := Some (lit "blog");
                SMTP_PASS := Some (lit "pw");
                RESEND_API_KEY := Some (lit "re_key") |} in
  let m := welcomeMail (lit "ann@example.org") in
  let e := {| from := Some (lit "blog@example.org"); mail := m |} in
  sendMail deadWorld env m []
  = ([HttpPost (lit "re_key") e;
      Error (lit "Resend send failed") (lit "ann@example.org");
      SmtpSend e;
      Error (lit "SMTP send failed") (lit "ann@example.org")],
     Resolved false)
  /\ (let r := subscribe Renderer.asciiLower deadWorld env
                 (Some (lit " Ann@Example.org ")) (getDb noTables) [] in
      response r = Redirect (lit "/?subscribed=1")
      /\ subscriberEmails (store r) = [lit "ann@example.org"]
      /\ attemptsOf (trace r) = [ViaHttps; ViaSmtp]).
Proof. split; [reflexivity|]. repeat split. Qed.

(** C1, at the failing input.  One subscriber and no provider configured:
    the one send resolves with [false], and the broadcast logs one message
    sent and none failed. *)
Theorem broadcast_counts_failed_send_as_sent :
  let db := getDb {| t_posts := []; t_posts_seq := 0;
                     t_comments := []; t_comments_seq := 0;
                     t_subscribers := [{| subscriber_id := 1;
                                          subscriber_email := lit "a@b.c" |}];
                     t_subscribers_seq := 1 |} in
  let mail := {| to := lit "a@b.c"; subject := lit "Hi";
                 html := broadcastHtml (lit "Hi") (lit "News");
                 text := lit "News" |} in
  snd (sendMail deadWorld noEnv mail []) = Resolved false
  /\ In (Count (lit "[broadcast] Results:") 1 1 0)
        (trace (broadcast deadWorld noEnv (Some 1%N)
                  (Some (lit "Hi")) (Some (lit "News")) db [])).
Proof.
  split; [reflexivity|]. vm_compute. auto 10.
Qed.

(** Every broadcast logs all its sends as sent, none as failed. *)
Lemma broadcast_logs_every_send_as_sent (w : World) (env : Env) (user : N)
  (s msg : option jsstring) (db : Db) (tr : list Event) :
  trim (field s) <> [] -> trim (field msg) <> [] ->
  let n := List.length (subscribers db) in
  exists tr',
    trace (broadcast w env (Some user) s msg db tr)
    = tr' ++ [Count (lit "[broadcast] Results:") n n 0].
Proof.
  intros Hs Hm n. unfold trace, broadcast, requireAuth.
  destruct (trim (field s)) as [|c0 subj]; [contradiction|].
  destruct (trim (field msg)) as [|m0 body]; [contradiction|].
  cbn [snd]. rewrite <- (map_map _ (sendMail w env)).
  match goal with
  | |- context [fst (?b ?t)] =>
      destruct (batch_counts w env (lit "[broadcast] Results:")
                  (List.map (fun e0 => {| to := e0; subject := c0 :: subj;
                                          html := broadcastHtml (c0 :: subj) (m0 :: body);
                                          text := m0 :: body |})
                            (subscriberEmails db)) t) as (tr' & E)
  end.
  rewrite E. unfold subscriberEmails. rewrite !length_map. fold n.
  eexists. now rewrite !app_assoc.
Qed.

End DispatchClaims.

(** ** Posts, comments and subscribers: claims *)

Module StoreClaims.
Import Email EmailSpec Sqlite Routes RoutesSpec RoutesFacts.

(** C7.  Subscribing an address twice leaves exactly one record of the
    lowercased address; both requests are answered with a redirect to the
    home page ([subscribed=1] or [subscribed=0]), the second with
    [subscribed=0], and no error. *)
Theorem subscribing_twice_keeps_one_record :
  forall (lower : jsstring -> jsstring) (w : World) (env : Env)
         (emailField : option jsstring) (db : Db) (tr : list Event),
    let email := lower (trim (field emailField)) in
    let first := subscribe lower w env emailField db tr in
    let second := subscribe lower w env emailField (store first) (trace first) in
    email <> [] ->
    uniqueEmails db ->
    emailCount email (store second) = 1
    /\ (response first = Redirect (lit "/?subscribed=1")
        \/ response first = Redirect (lit "/?subscribed=0"))
    /\ response second = Redirect (lit "/?subscribed=0")
    /\ uniqueEmails (store second).
Proof.
  intros lower w env emailField db tr email first second Hne Huniq.
  subst first second. unfold subscribe. fold email.
  destruct email as [|c e] eqn:Ee; [contradiction|].
  destruct (insertSubscriber (c :: e) db) as [db'|] eqn:Ins.
  - destruct (insertSubscriber_fresh _ _ Ins) as (_ & Has & Cnt & Uni).
    unfold store, response, trace. cbn [fst snd].
    rewrite (insertSubscriber_taken _ _ Has). cbn [fst snd]. auto.
  - unfold store, response, trace. cbn [fst snd]. rewrite Ins. cbn [fst snd].
    assert (Has : hasEmail (c :: e) db = true).
    { unfold insertSubscriber in Ins. now destruct (hasEmail (c :: e) db). }
    repeat split; auto. now apply count_unique.
Qed.

Lemma subscribing_twice_keeps_one_record_witness :
  emailCount (lit "ann@example.org")
    (store (subscribe Renderer.asciiLower deadWorld noEnv
              (Some (lit " Ann@Example.org "))
              (store (subscribe Renderer.asciiLower deadWorld noEnv
                        (Some (lit " Ann@Example.org ")) (getDb noTables) []))
              (trace (subscribe Renderer.asciiLower deadWorld noEnv
                        (Some (lit " Ann@Example.org ")) (getDb noTables) []))))
  = 1.
Proof.
  refine (proj1 (@subscribing_twice_keeps_one_record Renderer.asciiLower
                   deadWorld noEnv (Some (lit " Ann@Example.org "))
                   (getDb noTables) [] _ _)).
  - discriminate.
  - constructor.
Defined.

(** C6, as amended.  In the SQLite site the slug stored with a created post
    is [slugify] of the trimmed title, a function of the title alone; and
    when a second creation's title has the slug of a first one, the second is
    answered with the form and "Title already used", the posts table stays
    as the first request left it, and the first post, if it was created, is
    still there with its own title and content. *)
Theorem second_post_with_same_slug_is_refused :
  forall (lower : jsstring -> jsstring) (w : World) (env : Env) (user : N)
         (f1 f2 : PostForm) (db : Db) (tr : list Event),
    let title1 := trim (field (form_title f1)) in
    let title2 := trim (field (form_title f2)) in
    let first := createPost lower w env (Some user) f1 db tr in
    let second := createPost lower w env (Some user) f2 (store first) (trace first) in
    title1 <> [] -> trim (field (form_content f1)) <> [] ->
    title2 <> [] -> trim (field (form_content f2)) <> [] ->
    Renderer.slugify lower title1 = Renderer.slugify lower title2 ->
    response second
    = Render (lit "admin/new") (Some (lit "Title already used"))
    /\ posts (store second) = posts (store first)
    /\ (response first = Redirect (lit "/admin") ->
        exists p, In p (posts (store second))
                  /\ post_slug p = Renderer.slugify lower title1
                  /\ post_title p = title1
                  /\ post_id p = N.succ (posts_seq db)).
Proof.
  intros lower w env user f1 f2 db tr title1 title2 first second
         Ht1 Hc1 Ht2 Hc2 Hslug.
  subst first second. unfold createPost, requireAuth.
  fold title1 title2.
  destruct title1 as [|a1 t1] eqn:E1; [contradiction|].
  destruct (trim (field (form_content f1))) as [|b1 c1] eqn:Ec1; [contradiction|].
  destruct title2 as [|a2 t2] eqn:E2; [contradiction|].
  destruct (trim (field (form_content f2))) as [|b2 c2] eqn:Ec2; [contradiction|].
  destruct (insertPost (a1 :: t1) _ _ db) as [db'|] eqn:Ins.
  - destruct (insertPost_fresh _ _ _ _ Ins) as (Has & Hin).
    unfold store, response, trace. cbn [fst snd].
    rewrite Hslug in Has. rewrite insertPost_taken by exact Has. cbn [fst snd].
    repeat split. intros _. eexists. split; [exact Hin|]. now cbn.
  - unfold store, response, trace. cbn [fst snd].
    assert (Has : hasSlug (Renderer.slugify lower (a1 :: t1)) db = true).
    { unfold insertPost in Ins. now destruct (hasSlug _ db). }
    rewrite Hslug in Has. rewrite insertPost_taken by exact Has. cbn [fst snd].
    repeat split. discriminate.
Qed.

Lemma second_post_with_same_slug_is_refused_witness :
  let f1 := {| form_title := Some (lit "Hello, World!");
               form_content := Some (lit "first"); form_files := [];
               form_protocol := lit "http"; form_host := lit "blog.test" |} in
  let f2 := {| form_title := Some (lit " hello world ");
               form_content := Some (lit "second"); form_files := [];
               form_protocol := lit "http"; form_host := lit "blog.test" |} in
  let first := createPost Renderer.asciiLower deadWorld noEnv (Some 1%N) f1
                 (getDb noTables) [] in
  response (createPost Renderer.asciiLower deadWorld noEnv (Some 1%N) f2
              (store first) (trace first))
  = Render (lit "admin/new") (Some (lit "Title already used")).
Proof.
  intros f1 f2 first.
  refine (proj1 (@second_post_with_same_slug_is_refused Renderer.asciiLower
                   deadWorld noEnv 1%N f1 f2 (getDb noTables) [] _ _ _ _ _)).
  - discriminate.
  - discriminate.
  - discriminate.
  - discriminate.
  - reflexivity.
Defined.

(** C6, as stated, fails in the file/LokiJS site: publishing a second post
    whose title has the slug of the first is answered like the first, with a
    redirect to the post, the one post file of that slug holds the text
    written for the second body instead of the first, and the collection
    lists the slug twice. *)
Lemma server_second_publish_overwrites_first :
  let admin := {| Server.isAdmin := true; Server.wantsJson := false |} in
  let st0 := {| Server.files := []; Server.postsCollection := Some [];
                Server.commentsCollection := Some [] |} in
  let st1 := snd (Server.publish Server.slugifyAscii Server.stringifyPlain admin 1000
                    (lit "2024-02-01T10:00:00.000Z") (lit "2024-02-01T10:00:00.001Z")
                    (Some (lit "Hello World")) (Some (lit "first")) st0) in
  let r := Server.publish Server.slugifyAscii Server.stringifyPlain admin 2000
             (lit "2024-02-02T10:00:00.000Z") (lit "2024-02-02T10:00:00.001Z")
             (Some (lit "hello  world")) (Some (lit "second")) st1 in
  fst r = Server.Redirect (lit "/p/hello-world")
  /\ Server.readFile (lit "hello-world") (Server.files st1)
     = Server.stringifyPlain (lit "first") (lit "Hello World")
         (lit "2024-02-01T10:00:00.000Z")
  /\ Server.readFile (lit "hello-world") (Server.files (snd r))
     = Server.stringifyPlain (lit "second") (lit "hello  world")
         (lit "2024-02-02T10:00:00.000Z")
  /\ List.map fst (Server.files (snd r)) = [lit "hello-world"]
  /\ option_map (List.map Server.doc_slug) (Server.postsCollection (snd r))
     = Some [lit "hello-world"; lit "hello-world"].
Proof. repeat split; reflexivity. Qed.

(** C2, at the failing input.  A post with one comment is deleted through
    the SQLite site: the post row goes, the comment that refers to it stays,
    because the connection never switches foreign keys on. *)
Theorem deleting_post_leaves_its_comments :
  let post := {| post_id := 1; post_title := lit "T"; post_slug := lit "t";
                 post_content := lit "body" |} in
  let comment := {| comment_id := 1; comment_post_id := 1;
                    comment_author := lit "Anonymous"; comment_body := lit "hi" |} in
  let db := getDb {| t_posts := [post]; t_posts_seq := 1;
                     t_comments := [comment]; t_comments_seq := 1;
                     t_subscribers := []; t_subscribers_seq := 0 |} in
  let r := deletePost (Some 1%N) 1 db [] in
  response r = Redirect (lit "/admin")
  /\ posts (store r) = []
  /\ commentsOf 1 (store r) = [comment].
Proof. repeat split; reflexivity. Qed.

(** Deleting a post that does not exist changes nothing and is answered
    like any other deletion. *)
Lemma deleting_absent_post_is_noop (user id : N) (db : Db) (tr : list Event) :
  existsb (fun p => N.eqb (post_id p) id) (posts db) = false ->
  deletePost (Some user) id db tr = (Redirect (lit "/admin"), db, tr).
Proof.
  intros H. unfold deletePost, requireAuth. now rewrite deletePostRow_absent.
Qed.

End StoreClaims.

(** ** Slugs and the renderer: further properties *)

Module RendererProps.
Import Renderer RendererSpec RendererFacts MoreSpec SlugFacts RenderMoreFacts.

Lemma shape_chars (s : jsstring) : forall prev,
  slugShape prev s = true ->
  Forall (fun c => isAlnum c = true \/ c = HYPHEN) s.
Proof.
  induction s as [|c r IH]; intros prev H; [constructor|].
  cbn [slugShape] in H. destruct (isHyphen c) eqn:E.
  - apply andb_true_iff in H as [_ Hr]. constructor; [|eauto].
    right. unfold isHyphen in E. now apply N.eqb_eq in E.
  - apply andb_true_iff in H as [Ha Hr]. constructor; eauto.
Qed.

Lemma shape_no_trailing (r : jsstring) : forall prev,
  slugShape prev (r ++ [HYPHEN]) = false.
Proof.
  induction r as [|c r IH]; intros prev.
  - cbn. now rewrite andb_false_r.
  - cbn [app slugShape]. destruct (isHyphen c).
    + rewrite IH. apply andb_false_r.
    + rewrite IH. apply andb_false_r.
Qed.

Lemma shape_no_double (a b : jsstring) : forall prev,
  slugShape prev (a ++ HYPHEN :: HYPHEN :: b) = false.
Proof.
  induction a as [|c a IH]; intros prev.
  - cbn. now rewrite andb_false_r.
  - cbn [app slugShape]. destruct (isHyphen c); rewrite IH; apply andb_false_r.
Qed.

(** Whatever the title and whatever [toLowerCase] does, a slug is made of
    [a-z], [0-9] and hyphens, does not start or end with a hyphen, and has no
    two hyphens in a row. *)
Theorem slug_is_url_safe :
  forall (lower : jsstring -> jsstring) (text : jsstring),
    let s := slugify lower text in
    Forall (fun c => isAlnum c = true \/ c = HYPHEN) s
    /\ (forall r, s <> HYPHEN :: r)
    /\ (forall r, s <> r ++ [HYPHEN])
    /\ (forall a b, s <> a ++ HYPHEN :: HYPHEN :: b).
Proof.
  intros lower text s. pose proof (slugify_shape lower text) as H.
  fold s in H. repeat split.
  - exact (shape_chars _ _ H).
  - intros r E. rewrite E in H. discriminate.
  - intros r E. rewrite E, shape_no_trailing in H. discriminate.
  - intros a b E. rewrite E, shape_no_double in H. discriminate.
Qed.

(** A slug is its own slug, where [toLowerCase] leaves it as it is (as it
    does a text of [a-z], [0-9] and hyphens). *)
Theorem slugify_is_idempotent :
  forall (lower : jsstring -> jsstring) (text : jsstring),
    lower (slugify lower text) = slugify lower text ->
    slugify lower (slugify lower text) = slugify lower text.
Proof.
  intros lower text L. apply slug_fixed; [apply slugify_shape|exact L].
Qed.

Lemma slugify_is_idempotent_witness :
  slugify asciiLower (slugify asciiLower (lit " Hello,  World -- 2nd! "))
  = slugify asciiLower (lit " Hello,  World -- 2nd! ").
Proof.
  apply (@slugify_is_idempotent asciiLower (lit " Hello,  World -- 2nd! ")).
  reflexivity.
Defined.

(** [escapeHtml] loses nothing: two texts with the same escaped form are
    the same text. *)
Theorem escapeHtml_is_injective :
  forall a b : jsstring, escapeHtml a = escapeHtml b -> a = b.
Proof.
  intros a b H. rewrite <- (decode_escape a), <- (decode_escape b).
  now rewrite H.
Qed.

Lemma escapeHtml_is_injective_witness : lit "a<b&c" = lit "a<b&c".
Proof.
  apply (@escapeHtml_is_injective (lit "a<b&c") (lit "a<b&c")). reflexivity.
Defined.

(** The rendering is line for line: the output has as many line feeds as
    the content, so each line of the content gives one line of markup. *)
Theorem rendering_keeps_the_line_count :
  forall content : jsstring,
    countLF (renderContentToHtml content) = countLF content.
Proof.
  intros content. unfold renderContentToHtml.
  destruct content as [|c r] eqn:E; [reflexivity|]. rewrite <- E. clear E c r.
  rewrite join_count.
  - now rewrite length_map, splitLines_count.
  - pose proof (splitLines_nonempty content).
    destruct (splitLines content); [contradiction|discriminate].
  - apply Forall_forall. intros l Hl. apply in_map_iff in Hl as (x & <- & Hx).
    apply countLF_notLF, renderLine_notLF.
    exact (proj1 (Forall_forall _ _) (splitLines_notLF content) x Hx).
Qed.

(** A line is rendered as a line break exactly when it holds nothing but
    white space. *)
Theorem blank_lines_are_line_breaks :
  forall line : jsstring,
    renderLine line = lit "<br/>" <-> forallb isSpace line = true.
Proof.
  intros line. rewrite <- trim_nil. unfold renderLine.
  destruct (trim line) as [|c t]; [tauto|].
  split; [|discriminate].
  destruct (standaloneImage (c :: t)); discriminate.
Qed.

(** Only a line that is one [http://] or [https://] URL without white space
    is rendered as the bare image element. *)
Theorem bare_image_only_for_url_lines :
  forall line : jsstring,
    renderLine line = imageElement (escapeHtml (trim line)) ->
    exists p rest, httpScheme p /\ trim line = p ++ rest /\ rest <> []
                   /\ forallb nonSpace rest = true.
Proof.
  intros line. unfold renderLine.
  destruct (trim line) as [|c t] eqn:E; [discriminate|].
  destruct (standaloneImage (c :: t)) eqn:S; [|discriminate].
  intros _. exact (standaloneImage_inv _ S).
Qed.

Lemma bare_image_only_for_url_lines_witness :
  exists p rest, httpScheme p /\ trim (lit " https://a.b/c.gif ") = p ++ rest
                 /\ rest <> [] /\ forallb nonSpace rest = true.
Proof.
  apply (@bare_image_only_for_url_lines (lit " https://a.b/c.gif ")).
  reflexivity.
Defined.

End RendererProps.

(** ** The dispatcher and the SQLite site: further properties *)

Module DispatchProps.
Import Email EmailSpec EmailFacts Sqlite Routes RoutesSpec RoutesFacts.
Import RoutesMore MoreSpec DispatchMoreFacts.

(** Each provider is handed the message as it was given, and the HTTPS
    provider is called with the configured API key only. *)
Theorem providers_get_the_message_given :
  forall (w : World) (env : Env) (m : Mail),
    Forall (fun e => mail e = m) (envelopesOf (fst (sendMail w env m [])))
    /\ (forall key e, In (HttpPost key e) (fst (sendMail w env m [])) ->
                      RESEND_API_KEY env = Some key).
Proof.
  intros w env m. split; [apply send_envelopes|].
  intros key e. apply send_key.
Qed.

(** The log accounts for every attempt: one success line when the message
    was delivered and none otherwise, and one error line for each attempt
    that did not deliver. *)
Theorem every_attempt_is_logged :
  forall (w : World) (env : Env) (m : Mail),
    let tr := fst (sendMail w env m []) in
    List.length (filter isSuccessLine tr) = (if delivered w env m then 1 else 0)
    /\ List.length (filter isErrorLine tr) + (if delivered w env m then 1 else 0)
       = List.length (attemptsOf tr).
Proof. intros w env m. apply send_log_lines. Qed.

(** The e-mail test of the administrator asks for a recipient when none is
    given, without sending; otherwise it answers "Sent" exactly when the
    message was delivered and "Failed" when it was not, and leaves the store
    alone. *)
Theorem email_test_reports_the_delivery :
  forall (w : World) (env : Env) (user : N) (toField : option jsstring)
         (db : Db) (tr : list Event),
    let to := trim (field toField) in
    let r := emailTest w env (Some user) toField db tr in
    (to = [] ->
     r = (Some (Send 400 (lit "Provide ?to=email@example.com")), db, tr))
    /\ (to <> [] ->
        fst (fst r)
        = Some (Send 200 (if delivered w env (testMail to)
                          then lit "Sent" else lit "Failed"))
        /\ snd (fst r) = db).
Proof.
  intros w env user toField db tr to r. subst r. unfold emailTest. fold to.
  split.
  - now intros ->.
  - intros Hne. destruct to as [|c t] eqn:E; [contradiction|].
    rewrite sendMail_run. now split.
Qed.

(** The test script exits with 1 and attempts no delivery without a
    recipient; with one it exits with 0 when the message was delivered and
    with 2 when it was not. *)
Theorem test_script_exit_code :
  forall (w : World) (env : Env) (args : list jsstring) (tr : list Event),
    let r := Users.sendTestEmail w env args tr in
    ((nth_error args 0 = None \/ nth_error args 0 = Some []) ->
     fst r = 1%N /\ attemptsOf (snd r) = attemptsOf tr)
    /\ (forall c rest, nth_error args 0 = Some (c :: rest) ->
         exists m, to m = c :: rest
                   /\ fst r = (if delivered w env m then 0%N else 2%N)).
Proof.
  intros w env args tr r. subst r. unfold Users.sendTestEmail. split.
  - intros [-> | ->]; cbn [fst snd]; (split; [reflexivity|]);
      unfold attemptsOf; rewrite flat_map_app; cbn; apply app_nil_r.
  - intros c rest ->. rewrite sendMail_run.
    match goal with |- context [delivered w env ?m] => exists m end.
    split; [reflexivity|]. now destruct (delivered w env _).
Qed.

(** Subscribing: nothing happens for a blank address; an address already
    on the list changes neither the store nor the trace (no second welcome
    mail); a new address is added under the next id, and exactly the welcome
    message to that address is handed to the providers. *)
Theorem subscribe_effects :
  forall (lower : jsstring -> jsstring) (w : World) (env : Env)
         (emailField : option jsstring) (db : Db) (tr : list Event),
    let email := lower (trim (field emailField)) in
    let r := subscribe lower w env emailField db tr in
    (email = [] -> r = (Redirect (lit "/"), db, tr))
    /\ (email <> [] -> hasEmail email db = true ->
         r = (Redirect (lit "/?subscribed=0"), db, tr))
    /\ (email <> [] -> hasEmail email db = false ->
         response r = Redirect (lit "/?subscribed=1")
         /\ subscribers (store r)
            = subscribers db ++ [{| subscriber_id := N.succ (subscribers_seq db);
                                    subscriber_email := email |}]
         /\ envelopesOf (trace r)
            = envelopesOf tr
              ++ envelopesOf (fst (sendMail w env (welcomeMail email) []))).
Proof.
  intros lower w env emailField db tr email r. subst r. unfold subscribe.
  fold email. repeat split.
  - now intros ->.
  - intros Hne Has. destruct email as [|c e]; [contradiction|].
    now rewrite insertSubscriber_taken.
  - destruct email as [|c e]; [contradiction|]. unfold insertSubscriber.
    now rewrite H0.
  - destruct email as [|c e]; [contradiction|]. unfold insertSubscriber.
    now rewrite H0.
  - destruct email as [|c e]; [contradiction|]. unfold insertSubscriber.
    rewrite H0. unfold trace. cbn [snd]. rewrite sendMail_run. cbn [fst].
    rewrite !envelopesOf_app. cbn. now rewrite !app_nil_r.
Qed.

(** A comment is stored only for a post that exists: an unknown slug is
    answered with 404 and changes nothing; otherwise at most one comment is
    appended, it refers to the post of that slug, and neither its author
    (["Anonymous"] when none is given) nor its body is blank. *)
Theorem comments_refer_to_existing_posts :
  forall (slug : jsstring) (author body : option jsstring)
         (db : Db) (tr : list Event),
    let r := addComment slug author body db tr in
    (findPostBySlug slug db = None ->
     r = (Send 404 (lit "Not found"), db, tr))
    /\ posts (store r) = posts db
    /\ (comments (store r) = comments db
        \/ exists c p,
             comments (store r) = comments db ++ [c]
             /\ In p (posts db) /\ post_slug p = slug
             /\ comment_post_id c = post_id p
             /\ comment_author c <> [] /\ comment_body c <> []
             /\ Some (comment_body c) = option_map trim body
             /\ (option_map trim author = None \/ option_map trim author = Some []
                 -> comment_author c = lit "Anonymous")).
Proof.
  intros slug author body db tr r. subst r. unfold addComment.
  destruct (findPostBySlug slug db) as [p|] eqn:F.
  - split; [discriminate|].
    destruct (option_map trim body) as [[|c b]|] eqn:B;
      unfold store; cbn [fst snd]; (split; [reflexivity|]); try now left.
    right. eexists. exists p. cbn [insertComment comments].
    split; [reflexivity|]. unfold findPostBySlug in F.
    apply find_some in F as [Hin E]. apply eqs_eq in E.
    cbn [comment_post_id comment_author comment_body].
    repeat split; auto; try discriminate.
    + unfold authorOf. destruct (option_map trim author) as [[|a s]|];
        discriminate.
    + unfold authorOf. now intros [-> | ->].
  - split; [reflexivity|]. unfold store. cbn [fst snd]. split; [reflexivity|].
    now left.
Qed.

(** The posts table keeps unique slugs, unique ids and ids within the
    counter, whatever is created, updated or deleted through the
    administrator routes. *)
Theorem posts_table_keeps_its_constraints :
  forall (lower : jsstring -> jsstring) (w : World) (env : Env)
         (uid : option N) (form : PostForm) (id : N) (db : Db) (tr : list Event),
    postsInv db ->
    postsInv (store (createPost lower w env uid form db tr))
    /\ postsInv (store (updatePost lower uid id form db tr))
    /\ postsInv (store (deletePost uid id db tr)).
Proof.
  intros lower w env uid form id db tr Inv.
  assert (Del : postsInv (deletePostRow id db)) by now apply deletePostRow_inv.
  unfold createPost, updatePost, deletePost, requireAuth, store.
  destruct uid as [u|]; [|split; [|split]; exact Inv].
  destruct (trim (field (form_title form))) as [|a t];
    [split; [|split]; cbn [fst snd]; assumption|].
  destruct (trim (field (form_content form))) as [|b c];
    [split; [|split]; cbn [fst snd]; assumption|].
  split; [|split].
  - destruct (insertPost _ _ _ db) as [db'|] eqn:I; cbn [fst snd]; auto.
    eapply insertPost_inv; [exact Inv|exact I].
  - destruct (updatePostRow _ _ _ _ db) as [db'|] eqn:U; cbn [fst snd]; auto.
    eapply updatePostRow_inv; [exact Inv|exact U].
  - exact Del.
Qed.

Lemma posts_table_keeps_its_constraints_witness :
  let one := {| post_id := 1; post_title := lit "One"; post_slug := lit "one";
                post_content := lit "first" |} in
  let two := {| post_id := 2; post_title := lit "Two"; post_slug := lit "two";
                post_content := lit "second" |} in
  let db := getDb {| t_posts := [one; two]; t_posts_seq := 2;
                     t_comments := []; t_comments_seq := 0;
                     t_subscribers := []; t_subscribers_seq := 0 |} in
  let form := {| form_title := Some (lit "Three!"); form_content := Some (lit "third");
                 form_files := []; form_protocol := lit "http";
                 form_host := lit "blog.test" |} in
  let created := store (createPost Renderer.asciiLower deadWorld noEnv (Some 1%N)
                          form db []) in
  let updated := store (updatePost Renderer.asciiLower (Some 1%N) 1 form db []) in
  let deleted := store (deletePost (Some 1%N) 1 db []) in
  (List.map post_slug (posts created) = [lit "one"; lit "two"; lit "three"]
   /\ List.map post_slug (posts updated) = [lit "three"; lit "two"]
   /\ List.map post_slug (posts deleted) = [lit "two"])
  /\ postsInv created /\ postsInv updated /\ postsInv deleted.
Proof.
  intros one two db form created updated deleted.
  split; [repeat split|].
  refine (@posts_table_keeps_its_constraints Renderer.asciiLower deadWorld noEnv
            (Some 1%N) form 1%N db [] _).
  unfold postsInv. cbn. split; [|split].
  - repeat constructor; cbn; intuition discriminate.
  - repeat constructor; cbn; intuition discriminate.
  - repeat constructor; discriminate.
Defined.

(** An update that would give a post the slug of another post is refused
    with "Title already used" and changes nothing; an update of a post to a
    title with its own slug is accepted. *)
Theorem update_respects_other_slugs :
  forall (lower : jsstring -> jsstring) (user id : N) (form : PostForm)
         (db : Db) (tr : list Event) (p q : Post),
    let title := trim (field (form_title form)) in
    let r := updatePost lower (Some user) id form db tr in
    title <> [] -> trim (field (form_content form)) <> [] ->
    In p (posts db) -> post_id p = id ->
    (In q (posts db) -> post_id q <> id ->
     post_slug q = Renderer.slugify lower title ->
     r = (Render (lit "admin/edit") (Some (lit "Title already used")), db, tr))
    /\ (postsInv db -> post_slug p = Renderer.slugify lower title ->
        response r = Redirect (lit "/admin")).
Proof.
  intros lower user id form db tr p q title r Ht Hc Hp Hid. subst r.
  unfold updatePost, requireAuth. fold title.
  destruct title as [|a t] eqn:Et; [contradiction|].
  destruct (trim (field (form_content form))) as [|b c]; [contradiction|].
  assert (Hhas : hasPostId id db = true).
  { apply existsb_exists. exists p. split; [exact Hp|]. now apply N.eqb_eq. }
  unfold updatePostRow. rewrite Hhas. cbn [andb]. split.
  - intros Hq Hqid Hslug.
    assert (X : existsb (fun p0 => negb (N.eqb (post_id p0) id)
                                   && eqs (post_slug p0)
                                        (Renderer.slugify lower (a :: t)))
                  (posts db) = true).
    { apply existsb_exists. exists q. split; [exact Hq|].
      apply andb_true_iff. split; [|now apply eqs_eq].
      apply negb_true_iff. now apply N.eqb_neq. }
    now rewrite X.
  - intros (Hs & Hi & _) Hslug.
    destruct (existsb _ (posts db)) eqn:X; [|reflexivity].
    exfalso. apply existsb_exists in X as (q0 & Hq0 & Y).
    apply andb_true_iff in Y as [Y1 Y2]. apply negb_true_iff in Y1.
    apply N.eqb_neq in Y1. apply eqs_eq in Y2.
    assert (E : q0 = p).
    { clear -Hs Hp Hq0 Y2 Hslug. rewrite <- Hslug in Y2.
      induction (posts db) as [|x l IH]; [destruct Hp|].
      simpl in Hs. inversion Hs as [|? ? Hn Hs']; subst.
      destruct Hp as [->|Hp], Hq0 as [->|Hq0]; auto.
      - exfalso. apply Hn. rewrite <- Y2. now apply in_map.
      - exfalso. apply Hn. rewrite Y2. now apply in_map. }
    subst q0. congruence.
Qed.

Lemma update_respects_other_slugs_witness :
  let p := {| post_id := 1; post_title := lit "One"; post_slug := lit "one";
              post_content := lit "x" |} in
  let db := getDb {| t_posts := [p]; t_posts_seq := 1;
                     t_comments := []; t_comments_seq := 0;
                     t_subscribers := []; t_subscribers_seq := 0 |} in
  let form := {| form_title := Some (lit " ONE "); form_content := Some (lit "y");
                 form_files := []; form_protocol := []; form_host := [] |} in
  response (updatePost Renderer.asciiLower (Some 7%N) 1 form db [])
  = Redirect (lit "/admin").
Proof.
  intros p db form.
  refine (proj2 (@update_respects_other_slugs Renderer.asciiLower 7%N 1%N form
                   db [] p p _ _ _ _) _ _).
  - discriminate.
  - discriminate.
  - now left.
  - reflexivity.
  - repeat split; repeat constructor; auto. cbn. lia.
  - reflexivity.
Defined.

(** The notifications of a new post go to subscribers only, under the
    subject "New post: " and the title; a creation that is refused notifies
    no one. *)
Theorem new_post_notifies_subscribers_only :
  forall (lower : jsstring -> jsstring) (w : World) (env : Env)
         (uid : option N) (form : PostForm) (db : Db) (tr : list Event),
    let r := createPost lower w env uid form db tr in
    exists tr',
      trace r = tr ++ tr'
      /\ Forall (fun e => In (to (mail e)) (subscriberEmails db)
                          /\ subject (mail e)
                             = lit "New post: " ++ trim (field (form_title form)))
           (envelopesOf tr')
      /\ (response r <> Redirect (lit "/admin") -> tr' = []).
Proof.
  intros lower w env uid form db tr r. subst r.
  unfold createPost, requireAuth, trace, response.
  destruct uid as [u|];
    [|exists []; cbn; rewrite app_nil_r; repeat split; auto; constructor].
  destruct (trim (field (form_title form))) as [|a t] eqn:Et;
    [exists []; cbn; rewrite app_nil_r; repeat split; auto; constructor|].
  destruct (trim (field (form_content form))) as [|b c];
    [exists []; cbn; rewrite app_nil_r; repeat split; auto; constructor|].
  destruct (insertPost _ _ _ db) as [db'|] eqn:I;
    [|exists []; cbn; rewrite app_nil_r; repeat split; auto; constructor].
  assert (Subs : subscriberEmails db' = subscriberEmails db).
  { unfold insertPost in I. destruct (hasSlug _ db); [discriminate|].
    now injection I as <-. }
  cbn [fst snd]. unfold bind. rewrite <- (map_map _ (sendMail w env)).
  rewrite allSettled_trace. unfold logBatch, emit. cbn [fst].
  eexists. split; [rewrite <- !app_assoc; reflexivity|].
  split; [|intros X; now contradiction X].
  rewrite !envelopesOf_app. cbn [envelopesOf flat_map app]. rewrite app_nil_r.
  eapply Forall_impl; [|apply batch_envelopes].
  intros e Hin. cbn beta in Hin. apply in_map_iff in Hin as (x & <- & Hx).
  rewrite Subs in Hx. cbn [to subject]. now split.
Qed.

(** After the administrator deletes a subscriber the address is on the
    list no more, and subscribing it again is answered as a new
    subscription. *)
Theorem deleted_subscriber_can_subscribe_again :
  forall (lower : jsstring -> jsstring) (w : World) (env : Env) (user : N)
         (s : Subscriber) (emailField : option jsstring)
         (db : Db) (tr : list Event),
    let db1 := store (deleteSubscriber (Some user) (subscriber_id s) db tr) in
    uniqueEmails db ->
    In s (subscribers db) ->
    subscriber_email s <> [] ->
    lower (trim (field emailField)) = subscriber_email s ->
    emailCount (subscriber_email s) db1 = 0
    /\ response (subscribe lower w env emailField db1 tr)
       = Redirect (lit "/?subscribed=1").
Proof.
  intros lower w env user s emailField db tr db1 Huniq Hin Hne Hnorm.
  assert (Gone : hasEmail (subscriber_email s) db1 = false).
  { subst db1. unfold deleteSubscriber, requireAuth, store, deleteSubscriberRow,
      hasEmail. cbn [fst snd subscribers].
    destruct (existsb _ _) eqn:X; [|reflexivity]. exfalso.
    apply existsb_exists in X as (s' & Hs' & E). apply eqs_eq in E.
    apply filter_In in Hs' as [Hs' Hid]. apply negb_true_iff in Hid.
    apply N.eqb_neq in Hid. apply Hid. f_equal.
    clear -Huniq Hin Hs' E. unfold uniqueEmails in Huniq.
    induction (subscribers db) as [|x l IH]; [destruct Hin|].
    simpl in Huniq. inversion Huniq as [|? ? Hn Hu]; subst.
    destruct Hin as [->|Hin], Hs' as [->|Hs']; auto.
    - exfalso. apply Hn. rewrite <- E. now apply in_map.
    - exfalso. apply Hn. rewrite E. now apply in_map. }
  split.
  - unfold emailCount. apply count_none. exact Gone.
  - unfold subscribe, response. rewrite Hnorm.
    destruct (subscriber_email s) as [|c e]; [contradiction|].
    unfold insertSubscriber. now rewrite Gone.
Qed.

Lemma deleted_subscriber_can_subscribe_again_witness :
  let s := {| subscriber_id := 1; subscriber_email := lit "a@b.c" |} in
  let db := getDb {| t_posts := []; t_posts_seq := 0;
                     t_comments := []; t_comments_seq := 0;
                     t_subscribers := [s]; t_subscribers_seq := 1 |} in
  response (subscribe Renderer.asciiLower deadWorld noEnv (Some (lit "A@B.C"))
              (store (deleteSubscriber (Some 7%N) 1 db [])) [])
  = Redirect (lit "/?subscribed=1").
Proof.
  intros s db.
  refine (proj2 (@deleted_subscriber_can_subscribe_again Renderer.asciiLower
                   deadWorld noEnv 7%N s (Some (lit "A@B.C")) db [] _ _ _ _)).
  - repeat constructor. auto.
  - now left.
  - discriminate.
  - reflexivity.
Defined.

End DispatchProps.

(** ** Users and the file/LokiJS site: further properties *)

Module UsersProps.
Import Users RoutesFacts MoreSpec UsersServerFacts.

(** Seeding happens once: an empty users table gets the default
    administrator, a table with any user is left as it is, and seeding
    again changes nothing. *)
Theorem default_admin_is_seeded_once :
  forall (hash hash' : jsstring) (t : Table),
    exists t',
      seedAdmin hash t = Some t'
      /\ seedAdmin hash' t' = Some t'
      /\ (users t <> [] -> t' = t)
      /\ (users t = [] ->
          users t' = [{| user_id := N.succ (users_seq t);
                         user_email := lit "admin@example.com";
                         user_hash := hash |}]).
Proof.
  intros hash hash' [us q]. unfold seedAdmin. cbn [users].
  destruct us as [|u us].
  - eexists. unfold insertUser, hasUser. cbn. repeat split.
    now intros X.
  - exists {| users := u :: us; users_seq := q |}. repeat split. discriminate.
Qed.

(** The create-admin script on a database with a users table leaves exactly
    the given password on the (lowercased) address: it exits with 0, the
    address is in the table once, its row holds the new hash, and the rows of
    other addresses stay.  On a database where the insertion fails for
    another reason than the [UNIQUE] constraint (no users table: the script
    never calls [initDb]) it exits with 1 and changes nothing. *)
Theorem create_admin_sets_the_password :
  forall (lower hashOf : jsstring -> jsstring) (emailArg passwordArg : option jsstring)
         (t : Table),
    let email := lower (trim (Routes.field emailArg)) in
    let password := trim (Routes.field passwordArg) in
    let r := createAdmin lower hashOf emailArg passwordArg (Some t) in
    email <> [] -> password <> [] -> uniqueUsers t ->
    createAdmin lower hashOf emailArg passwordArg None = (1%N, None)
    /\ fst r = 0%N
    /\ exists t',
         snd r = Some t'
         /\ uniqueUsers t'
         /\ hasUser email t' = true
         /\ (forall u, In u (users t') -> user_email u = email ->
                       user_hash u = hashOf password)
         /\ (forall u, In u (users t) -> user_email u <> email ->
                       In u (users t')).
Proof.
  intros lower hashOf emailArg passwordArg t email password r He Hp Hu.
  subst r. unfold createAdmin. fold email password.
  destruct email as [|e0 e] eqn:Ee; [contradiction|].
  destruct password as [|p0 p] eqn:Ep; [contradiction|].
  split; [reflexivity|].
  unfold runInsertUser, insertUser.
  destruct (hasUser (e0 :: e) t) eqn:Has; cbn [mentionsUnique fst snd option_map].
  - split; [reflexivity|]. eexists. split; [reflexivity|]. split.
    { unfold uniqueUsers. now rewrite updateHash_emails. }
    split.
    { now rewrite hasUser_emails, updateHash_emails, <- hasUser_emails. }
    split.
    + intros u Hin E. unfold updateHash in Hin. cbn [users] in Hin.
      apply in_map_iff in Hin as (u0 & <- & _).
      destruct (eqs (user_email u0) (e0 :: e)) eqn:X; [reflexivity|].
      cbn [user_email] in E. apply eqs_eq in E. congruence.
    + intros u Hin Hne. unfold updateHash. cbn [users].
      apply in_map_iff. exists u. split; [|exact Hin].
      now rewrite eqs_neq.
  - split; [reflexivity|]. eexists. split; [reflexivity|].
    unfold uniqueUsers, hasUser. cbn [users]. split.
    { rewrite map_app. cbn. apply NoDup_app; [exact Hu|repeat constructor; auto|].
      intros a Ha [<-|[]]. apply in_map_iff in Ha as (u & E & Hin).
      exact (@hasUser_false _ _ _ Has Hin E). }
    split.
    { rewrite existsb_app. cbn [existsb user_email]. rewrite eqs_same.
      cbn [orb]. apply orb_true_r. }
    split.
    + intros u Hin E. apply in_app_or in Hin as [Hin|[<-|[]]]; [|reflexivity].
      exfalso. exact (@hasUser_false _ _ _ Has Hin E).
    + intros u Hin _. apply in_or_app. now left.
Qed.

Lemma create_admin_sets_the_password_witness :
  let lower := Renderer.asciiLower in
  let hashOf := fun p => lit "hash:" ++ p in
  let t := {| users := [{| user_id := 1; user_email := lit "root@blog.test";
                           user_hash := lit "hash:old" |};
                        {| user_id := 2; user_email := lit "ann@blog.test";
                           user_hash := lit "hash:ann" |}];
              users_seq := 2 |} in
  let r := createAdmin lower hashOf (Some (lit " Root@Blog.test "))
             (Some (lit "secret")) (Some t) in
  createAdmin lower hashOf (Some (lit " Root@Blog.test ")) (Some (lit "secret")) None
  = (1%N, None)
  /\ fst r = 0%N
  /\ exists t',
       snd r = Some t'
       /\ uniqueUsers t'
       /\ hasUser (lit "root@blog.test") t' = true
       /\ (forall u, In u (users t') -> user_email u = lit "root@blog.test" ->
                     user_hash u = lit "hash:secret")
       /\ (forall u, In u (users t) -> user_email u <> lit "root@blog.test" ->
                     In u (users t')).
Proof.
  intros lower hashOf t r.
  refine (@create_admin_sets_the_password lower hashOf
            (Some (lit " Root@Blog.test ")) (Some (lit "secret")) t _ _ _).
  - discriminate.
  - discriminate.
  - unfold uniqueUsers. cbn. repeat constructor; cbn; intuition discriminate.
Defined.

(** Logging in changes the session only for a user of the table, looked up
    by the address exactly as typed, whose stored hash matches the password;
    every other attempt that is answered gets the same "Invalid credentials". *)
Theorem login_needs_matching_credentials :
  forall (compare : jsstring -> jsstring -> bool)
         (email password : option jsstring) (t : Table) (session : option N),
    let r := login compare email password t session in
    (snd r = session
     /\ (fst r = None
         \/ fst r = Some (Render (lit "login") (Some (lit "Invalid credentials")))))
    \/ (exists u pw,
          In u (users t) /\ email = Some (user_email u) /\ password = Some pw
          /\ compare pw (user_hash u) = true
          /\ r = (Some (Redirect (lit "/admin")), Some (user_id u))).
Proof.
  intros compare email password t session r. subst r. unfold login.
  destruct email as [e|]; [|left; split; auto].
  destruct (find _ (users t)) as [u|] eqn:F; [|left; split; auto].
  destruct password as [pw|]; [|left; split; auto].
  destruct (compare pw (user_hash u)) eqn:C; [|left; split; auto].
  right. exists u, pw. apply find_some in F as [Hin E]. apply eqs_eq in E.
  subst e. repeat split; auto.
Qed.

(** The script stores the address lowercased while log-in looks it up as
    typed: an administrator created under a spelling that lowercasing
    changes cannot log in with that spelling, whatever the password. *)
Theorem created_admin_cannot_log_in_as_typed :
  forall (lower hashOf : jsstring -> jsstring)
         (compare : jsstring -> jsstring -> bool)
         (e : jsstring) (passwordArg password : option jsstring)
         (t : Table) (session : option N),
    hasUser e t = false ->
    lower (trim e) <> e ->
    exists t',
      snd (createAdmin lower hashOf (Some e) passwordArg (Some t)) = Some t'
      /\ login compare (Some e) password t' session
         = (Some (Render (lit "login") (Some (lit "Invalid credentials"))), session).
Proof.
  intros lower hashOf compare e passwordArg password t session Has Hne.
  assert (X : exists t',
            snd (createAdmin lower hashOf (Some e) passwordArg (Some t)) = Some t'
            /\ hasUser e t' = false).
  { unfold createAdmin. cbn [Routes.field].
    destruct (lower (trim e)) as [|e0 e1] eqn:L; [now exists t|].
    destruct (trim (Routes.field passwordArg)) as [|p0 p]; [now exists t|].
    unfold runInsertUser, insertUser.
    destruct (hasUser (e0 :: e1) t); cbn [mentionsUnique snd option_map];
      eexists; (split; [reflexivity|]).
    - now rewrite hasUser_emails, updateHash_emails, <- hasUser_emails.
    - unfold hasUser in *. cbn [users]. rewrite existsb_app, Has.
      cbn [existsb user_email orb]. rewrite eqs_neq by exact Hne. reflexivity. }
  destruct X as (t' & E & X). exists t'. split; [exact E|].
  unfold login. unfold hasUser in X. now rewrite (find_none _ _ X).
Qed.

Lemma created_admin_cannot_log_in_as_typed_witness :
  exists t',
    snd (createAdmin Renderer.asciiLower (fun p => lit "hash:" ++ p)
           (Some (lit "Root@blog.test")) (Some (lit "secret"))
           (Some {| users := []; users_seq := 0 |})) = Some t'
    /\ login (fun p h => eqs (lit "hash:" ++ p) h) (Some (lit "Root@blog.test"))
         (Some (lit "secret")) t' None
       = (Some (Render (lit "login") (Some (lit "Invalid credentials"))), None).
Proof.
  apply (@created_admin_cannot_log_in_as_typed Renderer.asciiLower
           (fun p => lit "hash:" ++ p) (fun p h => eqs (lit "hash:" ++ p) h)
           (lit "Root@blog.test") (Some (lit "secret")) (Some (lit "secret"))
           {| users := []; users_seq := 0 |} None).
  - reflexivity.
  - discriminate.
Defined.

End UsersProps.

Module ServerProps.
Import Server ServerMore RoutesFacts MoreSpec UsersServerFacts.

(** A published post is the file of its slug: when the package gives a
    text for the body and the front matter, the answer is the redirect to
    the post, the file of the slug holds exactly that text, every other file
    is as before, the collection gets one document of that slug and title,
    and the comments are untouched.  When the package throws, the answer is
    500 and nothing changes. *)
Theorem published_post_is_read_back :
  forall (pkg : jsstring -> jsstring)
         (stringify : jsstring -> jsstring -> jsstring -> option jsstring)
         (json : bool) (now : N) (iso iso' t b : jsstring) (t0 b0 : char)
         (st : State),
    let slug := slugFor pkg now (t0 :: t) in
    let r := publish pkg stringify {| isAdmin := true; wantsJson := json |}
               now iso iso' (Some (t0 :: t)) (Some (b0 :: b)) st in
    slug <> []
    /\ (forall raw, stringify (b0 :: b) (t0 :: t) iso = Some raw ->
          fst r = Redirect (lit "/p/" ++ slug)
          /\ readFile slug (files (snd r)) = Some raw
          /\ (forall k, k <> slug ->
                readFile k (files (snd r)) = readFile k (files st))
          /\ postsCollection (snd r)
             = option_map (fun docs => docs ++ [{| doc_slug := slug;
                                                  doc_title := t0 :: t;
                                                  doc_createdAt := iso' |}])
                 (postsCollection st)
          /\ commentsCollection (snd r) = commentsCollection st)
    /\ (stringify (b0 :: b) (t0 :: t) iso = None ->
        r = (Status 500 (lit "Failed to publish"), st)).
Proof.
  intros pkg stringify json now iso iso' t b t0 b0 st slug r. subst r.
  unfold publish, requireAdmin. cbn [isAdmin]. fold slug. split.
  { subst slug. unfold slugFor. destruct (pkg (t0 :: t)); discriminate. }
  split.
  - intros raw ->. cbn [fst snd files postsCollection commentsCollection].
    split; [reflexivity|]. split; [apply read_write_same|].
    split; [intros k Hk; now apply read_write_other|].
    split; [|reflexivity]. now destruct (postsCollection st).
  - now intros ->.
Qed.

(** Publishing under a slug that is new and deleting the post again gives
    the state back as it was. *)
Theorem publish_then_delete_restores_the_state :
  forall (pkg : jsstring -> jsstring)
         (stringify : jsstring -> jsstring -> jsstring -> option jsstring)
         (json : bool) (now : N) (iso iso' t b : jsstring) (t0 b0 : char)
         (st : State),
    let admin := {| isAdmin := true; wantsJson := json |} in
    let slug := slugFor pkg now (t0 :: t) in
    readFile slug (files st) = None ->
    (forall ds d, postsCollection st = Some ds -> In d ds -> doc_slug d <> slug) ->
    (forall cs c, commentsCollection st = Some cs -> In c cs -> cdoc_slug c <> slug) ->
    snd (deletePost admin slug
           (snd (publish pkg stringify admin now iso iso'
                   (Some (t0 :: t)) (Some (b0 :: b)) st)))
    = st.
Proof.
  intros pkg stringify json now iso iso' t b t0 b0 st admin slug Hf Hp Hc.
  unfold deletePost, publish, requireAdmin. subst admin.
  cbn [isAdmin]. fold slug.
  destruct st as [fs ps cs]. cbn [files postsCollection commentsCollection] in *.
  destruct (stringify (b0 :: b) (t0 :: t) iso) as [raw|];
    cbn [fst snd files postsCollection commentsCollection]; f_equal.
  - now apply unlink_write_fresh.
  - destruct ps as [ds|]; [|reflexivity]. cbn [option_map]. f_equal.
    apply removeFirst_fresh; [|reflexivity]. intros x Hx. now apply (Hp ds).
  - destruct cs as [cs|]; [|reflexivity]. cbn [option_map]. f_equal.
    apply findAndRemove_fresh. intros c Hin. now apply (Hc cs).
  - now apply unlink_fresh.
  - destruct ps as [ds|]; [|reflexivity]. cbn [option_map]. f_equal.
    apply removeFirst_absent. intros x Hx. now apply (Hp ds).
  - destruct cs as [cs|]; [|reflexivity]. cbn [option_map]. f_equal.
    apply findAndRemove_fresh. intros c Hin. now apply (Hc cs).
Qed.

Lemma publish_then_delete_restores_the_state_witness :
  let admin := {| isAdmin := true; wantsJson := false |} in
  let st := {| files := [(lit "about", lit "About this site")];
               postsCollection :=
                 Some [{| doc_slug := lit "about"; doc_title := lit "about";
                          doc_createdAt := lit "2024-01-01T00:00:00.000Z" |}];
               commentsCollection :=
                 Some [{| cdoc_slug := lit "about"; cdoc_name := lit "Ann";
                          cdoc_text := lit "Hi";
                          cdoc_createdAt := lit "2024-01-02T00:00:00.000Z" |}] |} in
  snd (deletePost admin (lit "hello-world")
         (snd (publish slugifyAscii stringifyPlain admin 1
                 (lit "2024-02-01T10:00:00.000Z") (lit "2024-02-01T10:00:00.001Z")
                 (Some (lit "Hello World")) (Some (lit "text")) st)))
  = st.
Proof.
  intros admin st.
  refine (@publish_then_delete_restores_the_state slugifyAscii stringifyPlain
            false 1 (lit "2024-02-01T10:00:00.000Z")
            (lit "2024-02-01T10:00:00.001Z")
            (lit "ello World") (lit "ext") 72%N 116%N st _ _ _).
  - reflexivity.
  - intros ds d [= <-] [<-|[]]. discriminate.
  - intros cs c [= <-] [<-|[]]. discriminate.
Defined.

(** The start-up backfill lists the post files up to the first one whose
    front matter cannot be read, and stops there: with one file per name,
    the files are untouched; a second run changes nothing; every file
    before the first unreadable one is found under its slug, with the
    document made from its front matter; and when a file cannot be read the
    collection is what the files before it alone would give, so that the
    files after it are not backfilled. *)
Theorem backfill_stops_at_unreadable_file :
  forall (matter : jsstring -> option FrontMatter) (ctime : jsstring -> jsstring)
         (st : State),
    uniqueFiles st ->
    files (initDb matter ctime st) = files st
    /\ initDb matter ctime (initDb matter ctime st) = initDb matter ctime st
    /\ (forall good rest slug raw data,
          files st = good ++ rest ->
          (forall kv, In kv good -> matter (snd kv) <> None) ->
          In (slug, raw) good -> matter raw = Some data ->
          exists docs,
            postsCollection (initDb matter ctime st) = Some docs
            /\ findDoc slug docs = Some (docOf ctime slug data))
    /\ (forall good rest slug raw,
          files st = good ++ (slug, raw) :: rest ->
          (forall kv, In kv good -> matter (snd kv) <> None) ->
          matter raw = None ->
          postsCollection (initDb matter ctime st)
          = postsCollection (initDb matter ctime (withFiles good st))).
Proof.
  intros matter ctime st N. unfold initDb, withFiles.
  cbn [files postsCollection commentsCollection].
  set (docs0 := match postsCollection st with Some d => d | None => [] end).
  rewrite !backfill_readable.
  pose proof (readable_NoDup matter (files st) N) as N'.
  split; [reflexivity|]. split; [|split].
  - f_equal. f_equal. apply backfill_fixed. intros kv Hin.
    now apply (backfill_finds ctime (readable matter (files st)) docs0 N').
  - intros good rest slug raw data E A Hin M. eexists. split; [reflexivity|].
    apply (proj1 (backfill_finds ctime (readable matter (files st)) docs0 N')
             (slug, data)).
    rewrite E. now apply readable_app_in with (raw := raw).
  - intros good rest slug raw E A M. rewrite backfill_readable, E.
    now rewrite readable_app_stop.
Qed.

Lemma backfill_stops_at_unreadable_file_witness :
  let matter := matterPlain in
  let ctime := fun _ : jsstring => lit "2024-03-01T00:00:00.000Z" in
  let first := (lit "hello-world",
                lit "---" ++ [10%N] ++ lit "title: Hello World" ++ [10%N]
                ++ lit "createdAt: '2024-02-01T10:00:00.000Z'" ++ [10%N]
                ++ lit "---" ++ [10%N] ++ lit "text" ++ [10%N]) in
  let second := (lit "notes", lit "No front matter here") in
  let broken := (lit "draft",
                 lit "---" ++ [10%N] ++ lit "title: [" ++ [10%N]
                 ++ lit "---" ++ [10%N] ++ lit "text") in
  let late := (lit "late", lit "Written after the draft") in
  let st := {| files := [first; second; broken; late];
               postsCollection := None; commentsCollection := None |} in
  initDb matter ctime (initDb matter ctime st) = initDb matter ctime st
  /\ (exists docs,
        postsCollection (initDb matter ctime st) = Some docs
        /\ findDoc (lit "hello-world") docs
           = Some {| doc_slug := lit "hello-world"; doc_title := lit "Hello World";
                     doc_createdAt := lit "2024-02-01T10:00:00.000Z" |})
  /\ (exists docs,
        postsCollection (initDb matter ctime st) = Some docs
        /\ findDoc (lit "notes") docs
           = Some {| doc_slug := lit "notes"; doc_title := lit "notes";
                     doc_createdAt := lit "2024-03-01T00:00:00.000Z" |})
  /\ postsCollection (initDb matter ctime st)
     = postsCollection (initDb matter ctime (withFiles [first; second] st)).
Proof.
  intros matter ctime first second broken late st.
  assert (U : uniqueFiles st).
  { unfold uniqueFiles. cbn. repeat constructor; cbn; intuition discriminate. }
  assert (A : forall kv, In kv [first; second] -> matter (snd kv) <> None).
  { intros kv [<-|[<-|[]]]; discriminate. }
  destruct (@backfill_stops_at_unreadable_file matter ctime st U)
    as (_ & I & L & S).
  split; [exact I|]. split; [|split].
  - refine (L [first; second] [broken; late] (fst first) (snd first)
              {| fm_title := Some (lit "Hello World");
                 fm_createdAt := Some (lit "2024-02-01T10:00:00.000Z") |}
              eq_refl A _ eq_refl).
    now left.
  - refine (L [first; second] [broken; late] (fst second) (snd second)
              {| fm_title := None; fm_createdAt := None |}
              eq_refl A _ eq_refl).
    right. now left.
  - exact (S [first; second] [late] (fst broken) (snd broken) eq_refl A eq_refl).
Defined.

End ServerProps.

(** ** Uploads: further properties *)

Module UploadProps.
Import Renderer RendererSpec RendererFacts MoreSpec Uploads UploadFacts.

(** Whatever the original name of an upload, the stored file name is made
    of letters, digits, [_], [.] and [-] only: no path separator, no white
    space, no quote. *)
Theorem upload_name_is_safe :
  forall (now rnd : N) (originalname : option jsstring),
    forallb safeChar (filename now rnd originalname) = true
    /\ forallb nonSpace (filename now rnd originalname) = true
    /\ ~ In (ch "/"%char) (filename now rnd originalname).
Proof.
  intros now rnd o. pose proof (filename_safe now rnd o) as H.
  split; [exact H|]. split; [now apply safe_nonSpace|].
  intros Hin. pose proof (proj1 (forallb_forall _ _) H _ Hin) as X.
  discriminate.
Qed.

(** An uploaded image is embedded: the URL that post creation appends for
    an upload whose original name ends in an allow-listed extension is
    rendered as the bare image element, whatever else the name holds. *)
Theorem uploaded_image_is_embedded :
  forall (now rnd : N) (stem ext proto host : jsstring),
    let url := proto ++ lit "://" ++ host ++ lit "/uploads/"
               ++ filename now rnd (Some (stem ++ DOT :: ext)) in
    proto = lit "http" \/ proto = lit "https" ->
    forallb nonSpace host = true ->
    In (asciiLower ext) extensions ->
    renderLine url = imageElement (escapeHtml url).
Proof.
  intros now rnd stem ext proto host url Hp Hh He.
  destruct (safeBase_extension stem ext He) as (stem' & Es & Hs).
  set (body := host ++ lit "/uploads/"
               ++ (Server.digits now ++ lit "-" ++ Server.digits rnd) ++ lit "-"
               ++ stem').
  assert (Eu : url = (proto ++ lit "://") ++ body ++ DOT :: ext).
  { subst url body. unfold filename. rewrite Es.
    now rewrite <- !app_assoc. }
  assert (Hs' : httpScheme (proto ++ lit "://")).
  { destruct Hp as [->| ->]; [now left|now right]. }
  assert (Hb : forallb nonSpace body = true).
  { subst body. rewrite !forallb_app, Hh.
    rewrite !(safe_nonSpace _ (digits_safe _)), (safe_nonSpace _ Hs).
    reflexivity. }
  assert (Hne : body <> []).
  { subst body. intros X. apply (f_equal (@List.length char)) in X.
    rewrite !length_app in X. cbn in X. lia. }
  assert (Hall : forallb nonSpace url = true).
  { rewrite Eu, !forallb_app, Hb. cbn [forallb].
    rewrite (extension_nonSpace _ He).
    destruct Hp as [->| ->]; reflexivity. }
  unfold renderLine. rewrite (trim_nonSpace _ Hall), Eu.
  rewrite standaloneImage_url by assumption.
  destruct ((proto ++ lit "://") ++ body ++ DOT :: ext) eqn:E; [|reflexivity].
  destruct Hp as [->| ->]; discriminate.
Qed.

Lemma uploaded_image_is_embedded_witness :
  renderLine (lit "https" ++ lit "://" ++ lit "blog.test" ++ lit "/uploads/"
              ++ filename 1700 42 (Some (lit "my cat!" ++ DOT :: lit "JPG")))
  = imageElement
      (escapeHtml (lit "https" ++ lit "://" ++ lit "blog.test" ++ lit "/uploads/"
                   ++ filename 1700 42 (Some (lit "my cat!" ++ DOT :: lit "JPG")))).
Proof.
  apply (@uploaded_image_is_embedded 1700 42 (lit "my cat!") (lit "JPG")
           (lit "https") (lit "blog.test")).
  - now right.
  - reflexivity.
  - simpl. auto.
Defined.

End UploadProps.
